(** * github-ci: workflow linter and action version resolver

    A shallow embedding of the parts of the Go sources that the checked
    properties talk about, followed by the properties themselves.

    Conventions.
    - A Go [string] is the list of its bytes ([gostring]); [lit] turns a
      literal into one.  Functions of the Go packages [strings],
      [unicode] and [unicode/utf8] are modelled in [GoStrings] after their
      documented behaviour.
    - A Go [int] is a [Z]; the [int64] cache counters wrap around, which is
      written out in [incr64].
    - A Go [error] is its message; [nil] is [None].
    - A Go map is a [gmap]; a [range] over a map takes its iteration order
      as a parameter.
    - The remote API is an oracle indexed by the number of requests made so
      far, so that it may answer the same question differently over time. *)

From Stdlib Require Import ZArith Lia DecimalString Ascii.
From stdpp Require Import gmap strings list.

Open Scope Z_scope.

Abbreviation gostring := (list ascii).

(** ** Go strings, runes and the [strings] package *)

Module GoStrings.

Definition lit (s : string) : gostring := String.list_ascii_of_string s.

Definition code (c : ascii) : Z := Z.of_N (N_of_ascii c).

Definition LF : ascii := "010"%char.
Definition TAB : ascii := "009"%char.
Definition SP : ascii := " "%char.

(** [len(s)] *)
Definition len (s : gostring) : Z := Z.of_nat (length s).

(** [fmt.Sprintf("%d", z)] *)
Definition itoa (z : Z) : gostring := lit (NilEmpty.string_of_int (Z.to_int z)).

(** *** unicode/utf8 *)

Definition RuneError : Z := 65533.

(** [utf8.DecodeRuneInString]: the first rune of [s] and its width in
    bytes; an invalid or short encoding is [RuneError] of width 1. *)
Definition DecodeRuneInString (s : gostring) : Z * nat :=
  match s with
  | [] => (RuneError, 0%nat)
  | s0 :: t =>
    let b0 := code s0 in
    if b0 <? 128 then (b0, 1%nat)
    else if (b0 <? 194) || (244 <? b0) then (RuneError, 1%nat)
    else
      let sz : nat := if b0 <? 224 then 2%nat else if b0 <? 240 then 3%nat else 4%nat in
      let lo := if b0 =? 224 then 160 else if b0 =? 240 then 144 else 128 in
      let hi := if b0 =? 237 then 159 else if b0 =? 244 then 143 else 191 in
      if (length s <? sz)%nat then (RuneError, 1%nat)
      else
        match t with
        | s1 :: s2 :: s3 :: _ =>
          if (code s1 <? lo) || (hi <? code s1) then (RuneError, 1%nat)
          else if (sz <=? 2)%nat then
            (Z.lor (Z.shiftl (Z.land b0 31) 6) (Z.land (code s1) 63), 2%nat)
          else if (code s2 <? 128) || (191 <? code s2) then (RuneError, 1%nat)
          else if (sz <=? 3)%nat then
            (Z.lor (Z.lor (Z.shiftl (Z.land b0 15) 12) (Z.shiftl (Z.land (code s1) 63) 6))
                   (Z.land (code s2) 63), 3%nat)
          else if (code s3 <? 128) || (191 <? code s3) then (RuneError, 1%nat)
          else
            (Z.lor (Z.lor (Z.lor (Z.shiftl (Z.land b0 7) 18) (Z.shiftl (Z.land (code s1) 63) 12))
                          (Z.shiftl (Z.land (code s2) 63) 6))
                   (Z.land (code s3) 63), 4%nat)
        | s1 :: s2 :: [] =>
          if (code s1 <? lo) || (hi <? code s1) then (RuneError, 1%nat)
          else if (sz <=? 2)%nat then
            (Z.lor (Z.shiftl (Z.land b0 31) 6) (Z.land (code s1) 63), 2%nat)
          else if (code s2 <? 128) || (191 <? code s2) then (RuneError, 1%nat)
          else
            (Z.lor (Z.lor (Z.shiftl (Z.land b0 15) 12) (Z.shiftl (Z.land (code s1) 63) 6))
                   (Z.land (code s2) 63), 3%nat)
        | s1 :: [] =>
          if (code s1 <? lo) || (hi <? code s1) then (RuneError, 1%nat)
          else (Z.lor (Z.shiftl (Z.land b0 31) 6) (Z.land (code s1) 63), 2%nat)
        | [] => (RuneError, 1%nat)
        end
  end.

(** [for i, r := range s]: the runes of [s] with their byte offsets. *)
Fixpoint rangeFrom (fuel : nat) (i : nat) (s : gostring) : list (nat * Z) :=
  match fuel with
  | O => []
  | S fuel' =>
    match s with
    | [] => []
    | _ :: _ =>
      let '(r, size) := DecodeRuneInString s in
      (i, r) :: rangeFrom fuel' (i + size)%nat (drop size s)
    end
  end.

Definition rangeString (s : gostring) : list (nat * Z) := rangeFrom (length s) 0%nat s.

Definition runes (s : gostring) : list Z := (rangeString s).*2.

(** [utf8.RuneStart] *)
Definition RuneStart (c : ascii) : bool := negb (Z.land (code c) 192 =? 128).

Definition byteAt (s : gostring) (i : Z) : ascii := nth (Z.to_nat i) s "000"%char.

(** The backward scan of [utf8.DecodeLastRuneInString] for the start of
    the last rune: [for start--; start >= lim; start-- { if RuneStart(s[start]) { break } }]. *)
Fixpoint scanStart (fuel : nat) (s : gostring) (start lim : Z) : Z :=
  match fuel with
  | O => start
  | S fuel' =>
    if start <? lim then start
    else if RuneStart (byteAt s start) then start
    else scanStart fuel' s (start - 1) lim
  end.

(** [utf8.DecodeLastRuneInString] *)
Definition DecodeLastRuneInString (s : gostring) : Z * nat :=
  let end_ := len s in
  if end_ =? 0 then (RuneError, 0%nat)
  else
    let start := end_ - 1 in
    let r := code (byteAt s start) in
    if r <? 128 then (r, 1%nat)
    else
      let lim := Z.max (end_ - 4) 0 in
      let start := scanStart (length s) s (start - 1) lim in
      let start := if start <? 0 then 0 else start in
      let '(r, size) := DecodeRuneInString (drop (Z.to_nat start) s) in
      if negb (start + Z.of_nat size =? end_) then (RuneError, 1%nat) else (r, size).

(** *** unicode *)

(** [unicode.IsSpace] *)
Definition IsSpace (r : Z) : bool :=
  ((9 <=? r) && (r <=? 13)) || (r =? 32) || (r =? 133) || (r =? 160)
  || (r =? 5760) || ((8192 <=? r) && (r <=? 8202)) || (r =? 8232) || (r =? 8233)
  || (r =? 8239) || (r =? 8287) || (r =? 12288).

(** [unicode.IsUpper] on the Latin-1 range, which is all that
    [rune(word[0])] of a byte can reach. *)
Definition IsUpper (r : Z) : bool :=
  ((65 <=? r) && (r <=? 90)) || ((192 <=? r) && (r <=? 214)) || ((216 <=? r) && (r <=? 222)).

(** *** strings *)

Fixpoint HasPrefix (s prefix : gostring) : bool :=
  match prefix, s with
  | [], _ => true
  | p :: prefix', c :: s' => if decide (c = p) then HasPrefix s' prefix' else false
  | _ :: _, [] => false
  end.

Definition HasSuffix (s suffix : gostring) : bool := HasPrefix (rev s) (rev suffix).

Definition TrimPrefix (s prefix : gostring) : gostring :=
  if HasPrefix s prefix then drop (length prefix) s else s.

(** [strings.CutPrefix] *)
Definition CutPrefix (s prefix : gostring) : gostring * bool :=
  if HasPrefix s prefix then (drop (length prefix) s, true) else (s, false).

(** [strings.Index]: the offset of the first occurrence, or -1. *)
Fixpoint Index (s substr : gostring) : Z :=
  if HasPrefix s substr then 0
  else
    match s with
    | [] => -1
    | _ :: s' => let i := Index s' substr in if i <? 0 then -1 else i + 1
    end.

Definition Contains (s substr : gostring) : bool := 0 <=? Index s substr.

(** [strings.Replace(s, old, new, 1)]: the first occurrence is replaced. *)
Definition ReplaceFirst (s old new : gostring) : gostring :=
  let i := Index s old in
  if i <? 0 then s
  else take (Z.to_nat i) s ++ new ++ drop (Z.to_nat i + length old) s.

Fixpoint dropWhile {A} (f : A → bool) (l : list A) : list A :=
  match l with
  | [] => []
  | x :: l' => if f x then dropWhile f l' else l
  end.

Definition inCutset (cutset : gostring) (c : ascii) : bool := bool_decide (c ∈ cutset).

(** [strings.TrimLeft] and [strings.TrimRight]; every cutset of the
    sources is made of ASCII bytes, for which Go trims byte by byte. *)
Definition TrimLeft (s cutset : gostring) : gostring := dropWhile (inCutset cutset) s.

Definition TrimRight (s cutset : gostring) : gostring :=
  rev (dropWhile (inCutset cutset) (rev s)).

(** [strings.TrimLeftFunc]: [for i, r := range s] up to the first rune that
    does not satisfy [f]. *)
Fixpoint trimLeftFrom (fuel : nat) (f : Z → bool) (s : gostring) : gostring :=
  match fuel with
  | O => []
  | S fuel' =>
    match s with
    | [] => []
    | _ :: _ =>
      let '(r, size) := DecodeRuneInString s in
      if f r then trimLeftFrom fuel' f (drop size s) else s
    end
  end.

Definition TrimLeftFunc (s : gostring) (f : Z → bool) : gostring :=
  trimLeftFrom (length s) f s.

(** [lastIndexFunc(s, f, false)]: the offset of the last rune that does not
    satisfy [f], or -1. *)
Fixpoint lastIndexNot (fuel : nat) (f : Z → bool) (s : gostring) (i : nat) : Z :=
  match fuel with
  | O => -1
  | S fuel' =>
    if (i =? 0)%nat then -1
    else
      let '(r, size) := DecodeLastRuneInString (take i s) in
      let i' := (i - size)%nat in
      if f r then lastIndexNot fuel' f s i' else Z.of_nat i'
  end.

(** [strings.TrimRightFunc] *)
Definition TrimRightFunc (s : gostring) (f : Z → bool) : gostring :=
  let i := lastIndexNot (length s) f s (length s) in
  if 0 <=? i then
    let '(_, wid) := DecodeRuneInString (drop (Z.to_nat i) s) in
    take (Z.to_nat i + wid) s
  else [].

(** [strings.TrimSpace]: leading and trailing white space, as defined by
    Unicode, removed. *)
Definition TrimSpace (s : gostring) : gostring :=
  TrimRightFunc (TrimLeftFunc s IsSpace) IsSpace.

(** [strings.Fields]: the maximal runs of runes that are not white space. *)
Fixpoint fieldsFrom (items : list (nat * Z)) (s : gostring) (start : option nat)
    : list gostring :=
  match items with
  | [] =>
    match start with
    | Some b => [drop b s]
    | None => []
    end
  | (end_, r) :: items' =>
    if IsSpace r then
      match start with
      | Some b => take (end_ - b) (drop b s) :: fieldsFrom items' s None
      | None => fieldsFrom items' s None
      end
    else
      match start with
      | Some b => fieldsFrom items' s (Some b)
      | None => fieldsFrom items' s (Some end_)
      end
  end.

Definition Fields (s : gostring) : list gostring := fieldsFrom (rangeString s) s None.

(** [strings.Repeat] *)
Definition Repeat (s : gostring) (count : Z) : gostring :=
  concat (replicate (Z.to_nat count) s).

(** [strings.Join] *)
Fixpoint Join (elems : list gostring) (sep : gostring) : gostring :=
  match elems with
  | [] => []
  | [e] => e
  | e :: elems' => e ++ sep ++ Join elems' sep
  end.

(** [strings.Split] for a separator that is not empty: cut at every
    occurrence of [sep], from the left. *)
Fixpoint splitFrom (fuel : nat) (s sep : gostring) : list gostring :=
  match fuel with
  | O => [s]
  | S fuel' =>
    let m := Index s sep in
    if m <? 0 then [s]
    else take (Z.to_nat m) s :: splitFrom fuel' (drop (Z.to_nat m + length sep) s) sep
  end.

Definition Split (s sep : gostring) : list gostring := splitFrom (length s) s sep.

(** [strings.LastIndex]: the offset of the last occurrence, or -1. *)
Fixpoint LastIndex (s substr : gostring) : Z :=
  match s with
  | [] => if HasPrefix [] substr then 0 else -1
  | _ :: s' =>
    let i := LastIndex s' substr in
    if 0 <=? i then i + 1
    else if HasPrefix s substr then 0 else -1
  end.

(** [strings.Cut]: [s] around the first occurrence of [sep]. *)
Definition Cut (s sep : gostring) : gostring * gostring * bool :=
  let i := Index s sep in
  if 0 <=? i then (take (Z.to_nat i) s, drop (Z.to_nat i + length sep) s, true)
  else (s, [], false).

(** *** path/filepath *)

(** [filepath.Base] where the separator is [/] and paths have no volume
    name: trailing slashes are stripped and the last element is kept; the
    empty path gives ".", a path of slashes only gives "/". *)
Definition Base (path : gostring) : gostring :=
  if bool_decide (path = []) then lit "."
  else
    let path := TrimRight path (lit "/") in
    let i := LastIndex path (lit "/") in
    let path := if 0 <=? i then drop (Z.to_nat (i + 1)) path else path in
    if bool_decide (path = []) then lit "/" else path.

End GoStrings.

Import GoStrings.

(** ** Package [version]

    The package is missing from the sources; the resolver calls the four
    functions below and nothing else of it.  They are an interface here,
    and what is proved about the resolver holds for every implementation
    of it. *)

Class Version := {
  Normalize : gostring → gostring;
  Compare : gostring → gostring → Z;
  ExtractMajor : gostring → Z;
  ExtractMajorMinor : gostring → Z * Z
}.

Module SpecVersion.

(** The decimal value of a run of digits; [None] when a byte is no digit
    or the run is empty. *)
Definition digit (c : ascii) : option Z :=
  if (48 <=? code c) && (code c <=? 57) then Some (code c - 48) else None.

Fixpoint atoiFrom (acc : Z) (s : gostring) : option Z :=
  match s with
  | [] => Some acc
  | c :: s' =>
    match digit c with
    | Some d => atoiFrom (10 * acc + d) s'
    | None => None
    end
  end.

Definition atoi (s : gostring) : option Z :=
  match s with
  | [] => None
  | _ => atoiFrom 0 s
  end.

(** Modelled from the spec: [version.Normalize] is missing from the
    sources; tags are "dotted numeric versions (optionally v-prefixed)",
    so normalising drops the [v]. *)
Definition Normalize (v : gostring) : gostring := TrimPrefix v (lit "v").

(** Modelled from the spec: the numeric components of a "dotted numeric
    version", a component that is no number counting as 0. *)
Definition components (v : gostring) : list Z :=
  (λ part, default 0 (atoi part)) <$> Split (Normalize v) (lit ".").

(** Modelled from the spec: [version.ExtractMajor] is missing from the
    sources; it is the first numeric component of the version. *)
Definition ExtractMajor (v : gostring) : Z := default 0 (components v !! 0%nat).

(** Modelled from the spec: [version.ExtractMajorMinor] is missing from
    the sources; it is the first two numeric components of the version. *)
Definition ExtractMajorMinor (v : gostring) : Z * Z :=
  (default 0 (components v !! 0%nat), default 0 (components v !! 1%nat)).

Fixpoint compareComponents (a b : list Z) : Z :=
  match a, b with
  | [], [] => 0
  | [], _ :: _ => -1
  | _ :: _, [] => 1
  | x :: a', y :: b' =>
    if x <? y then -1 else if y <? x then 1 else compareComponents a' b'
  end.

(** Modelled from the spec: [version.Compare] is missing from the sources;
    it is "a total order over tag strings interpreted as dotted numeric
    versions (optionally v-prefixed); missing components compare as
    lower". *)
Definition Compare (v1 v2 : gostring) : Z :=
  compareComponents (components v1) (components v2).

Definition impl : Version := Build_Version Normalize Compare ExtractMajor ExtractMajorMinor.

End SpecVersion.

(** ** Package [actions]: cache keys, the cache and the resolving client *)

Module Actions.

Abbreviation error := gostring.

(** *** cache_key.go *)

Record VersionKey := {
  Owner : gostring;
  Repo : gostring;
  Ref : gostring;
  Pattern : gostring
}.

#[global] Instance VersionKey_eq_dec : EqDecision VersionKey.
Proof. solve_decision. Defined.

Definition NewConstrainedKey (owner repo ref pattern : gostring) : VersionKey :=
  {| Owner := owner; Repo := repo; Ref := ref; Pattern := pattern |}.

Definition NewUnconstrainedKey (owner repo : gostring) : VersionKey :=
  {| Owner := owner; Repo := repo; Ref := []; Pattern := [] |}.

Definition IsConstrained (k : VersionKey) : bool :=
  negb (bool_decide (Ref k = [])) || negb (bool_decide (Pattern k = [])).

(** [VersionKey.String] *)
Definition String (k : VersionKey) : gostring :=
  if negb (IsConstrained k) then Owner k ++ lit "/" ++ Repo k
  else Owner k ++ lit "/" ++ Repo k ++ lit ":" ++ Ref k ++ lit ":" ++ Pattern k.

(** *** The cache *)

(** Modelled from the spec: the declaration of [VersionResult] is missing
    from the sources; it is "a cached outcome: resolved tag name, resolved
    commit hash, and an error value", built by [NewVersionResult] and read
    through [Tag], [Hash] and [Err] in the client and in the tests. *)
Record VersionResult := {
  Tag : gostring;
  Hash : gostring;
  Err : option error
}.

Definition NewVersionResult (tag hash : gostring) (err : option error) : VersionResult :=
  {| Tag := tag; Hash := hash; Err := err |}.

(** The zero value [VersionResult{}] *)
Definition zeroResult : VersionResult := {| Tag := []; Hash := []; Err := None |}.

Record CacheStats := {
  Hits : Z;
  Misses : Z
}.

(** The mutex of the Go structure is not modelled: the operations below
    are the critical sections, run one after the other. *)
Record Cache := {
  constrained : gmap gostring VersionResult;
  unconstrained : gmap gostring VersionResult;
  hits : Z;
  misses : Z
}.

(** [n++] on an [int64] *)
Definition incr64 (n : Z) : Z := (n + 1 + 2 ^ 63) mod 2 ^ 64 - 2 ^ 63.

Definition NewCache : Cache :=
  {| constrained := ∅; unconstrained := ∅; hits := 0; misses := 0 |}.

Definition GetConstrained (c : Cache) (key : VersionKey) : Cache * (VersionResult * bool) :=
  match constrained c !! String key with
  | Some cached =>
    ({| constrained := constrained c; unconstrained := unconstrained c;
        hits := incr64 (hits c); misses := misses c |}, (cached, true))
  | None => (c, (zeroResult, false))
  end.

Definition SetConstrained (c : Cache) (key : VersionKey) (result : VersionResult) : Cache :=
  {| constrained := <[String key := result]> (constrained c);
     unconstrained := unconstrained c;
     hits := hits c; misses := incr64 (misses c) |}.

Definition GetUnconstrained (c : Cache) (key : VersionKey) : Cache * (VersionResult * bool) :=
  match unconstrained c !! String key with
  | Some cached =>
    ({| constrained := constrained c; unconstrained := unconstrained c;
        hits := incr64 (hits c); misses := misses c |}, (cached, true))
  | None => (c, (zeroResult, false))
  end.

Definition SetUnconstrained (c : Cache) (key : VersionKey) (result : VersionResult) : Cache :=
  {| constrained := constrained c;
     unconstrained := <[String key := result]> (unconstrained c);
     hits := hits c; misses := incr64 (misses c) |}.

Definition Clear (c : Cache) : Cache :=
  {| constrained := ∅; unconstrained := ∅; hits := 0; misses := 0 |}.

Definition Stats (c : Cache) : CacheStats := {| Hits := hits c; Misses := misses c |}.

(** A call of the cache, for sequences of calls. *)
Inductive op :=
| OpSetConstrained (key : VersionKey) (result : VersionResult)
| OpSetUnconstrained (key : VersionKey) (result : VersionResult)
| OpGetConstrained (key : VersionKey)
| OpGetUnconstrained (key : VersionKey)
| OpClear.

(** One call: the cache after it and what the call returned, if it
    returns something. *)
Definition step (c : Cache) (o : op) : Cache * option (VersionResult * bool) :=
  match o with
  | OpSetConstrained key result => (SetConstrained c key result, None)
  | OpSetUnconstrained key result => (SetUnconstrained c key result, None)
  | OpGetConstrained key => let '(c', r) := GetConstrained c key in (c', Some r)
  | OpGetUnconstrained key => let '(c', r) := GetUnconstrained c key in (c', Some r)
  | OpClear => (Clear c, None)
  end.

Fixpoint run (ops : list op) (c : Cache) : Cache :=
  match ops with
  | [] => c
  | o :: ops' => run ops' (step c o).1
  end.

(** The values returned by the calls of a sequence, in order. *)
Fixpoint returned (ops : list op) (c : Cache) : list (option (VersionResult * bool)) :=
  match ops with
  | [] => []
  | o :: ops' => (step c o).2 :: returned ops' (step c o).1
  end.

(** *** parser.go *)

Definition IsCommitHash (ref : gostring) : bool :=
  if negb (len ref =? 40) then false
  else
    forallb (λ c,
      let isDigit := (48 <=? c) && (c <=? 57) in
      let isLowerHex := (97 <=? c) && (c <=? 102) in
      let isUpperHex := (65 <=? c) && (c <=? 70) in
      negb (negb isDigit && negb isLowerHex && negb isUpperHex)) (runes ref).

Definition IsMajorVersionOnly `{Version} (ref : gostring) : bool :=
  let ref := Normalize ref in
  if bool_decide (ref = []) then false
  else forallb (λ c, negb ((c <? 48) || (57 <? c))) (runes ref).

(** *** The client *)

Record tagInfo := {
  tag : gostring;
  hash : gostring
}.

(** What the client reads of a [github.RepositoryTag]: [GetName()] and
    [GetCommit().GetSHA()]. *)
Record RepositoryTag := {
  GetName : gostring;
  GetSHA : gostring
}.

(** The remote API.  The first argument is the number of requests made
    before this one.  [ListTags] answers a page with an error or with
    the tags of the page and [NextPage]; [GetRef] answers with an error or
    with the SHA of the object of the reference, if it has an object. *)
Class GitHubAPI := {
  ListTags : nat → gostring → gostring → Z → error + (list RepositoryTag * Z);
  GetRef : nat → gostring → gostring → gostring → error + option gostring
}.

(** The client: its cache, whether the API client has been initialised
    ([clientOnce]), and the number of requests sent so far. *)
Record Client := {
  cache : Cache;
  github : bool;
  requests : nat
}.

Definition NewClient : Client := {| cache := NewCache; github := false; requests := 0 |}.

Definition NewClientWithCache (c : Cache) : Client :=
  {| cache := c; github := false; requests := 0 |}.

Definition withCache (c : Client) (ch : Cache) : Client :=
  {| cache := ch; github := github c; requests := requests c |}.

Definition getGitHubClient (c : Client) : Client :=
  {| cache := cache c; github := true; requests := requests c |}.

Definition sent (c : Client) : Client :=
  {| cache := cache c; github := github c; requests := S (requests c) |}.

Definition ClearCache (c : Client) : Client := withCache c (Clear (cache c)).

Definition GetCacheStats (c : Client) : CacheStats := Stats (cache c).

Section client.
Context `{Version} `{GitHubAPI}.

(** [for _, tag := range tags { if !fn(tag) { return nil } }]: the state
    of the callback after the page and whether it asked to go on. *)
Fixpoint eachTag {A} (fn : A → RepositoryTag → A * bool) (tags : list RepositoryTag) (acc : A)
    : A * bool :=
  match tags with
  | [] => (acc, true)
  | t :: tags' =>
    let '(acc', continue) := fn acc t in
    if continue then eachTag fn tags' acc' else (acc', false)
  end.

(** The loop of [paginateTags].  The callback of the Go code updates the
    variables it captures; here it maps their state [A] to the new state.
    [None] when the fuel runs out. *)
Fixpoint paginateFrom {A} (fuel : nat) (c : Client) (owner repo : gostring) (page : Z)
    (fn : A → RepositoryTag → A * bool) (acc : A) : option (Client * A * option error) :=
  match fuel with
  | O => None
  | S fuel' =>
    let resp := ListTags (requests c) owner repo page in
    let c := sent c in
    match resp with
    | inl err => Some (c, acc, Some (lit "failed to fetch tags: " ++ err))
    | inr (tags, NextPage) =>
      let '(acc, continue) := eachTag fn tags acc in
      if negb continue then Some (c, acc, None)
      else if NextPage =? 0 then Some (c, acc, None)
      else paginateFrom fuel' c owner repo NextPage fn acc
    end
  end.

Definition paginateTags {A} (fuel : nat) (c : Client) (owner repo : gostring)
    (fn : A → RepositoryTag → A * bool) (acc : A) : option (Client * A * option error) :=
  paginateFrom fuel (getGitHubClient c) owner repo 0 fn acc.

Definition matchesVersionPattern (tagVersion pattern : gostring) : bool :=
  if bool_decide (pattern = []) then true
  else
    let '(after, ok) := CutPrefix pattern (lit "^") in
    if ok then
      let patternMajor := ExtractMajor after in
      let tagMajor := ExtractMajor tagVersion in
      if patternMajor =? 1 then tagMajor >=? 1
      else tagMajor =? patternMajor
    else
      let '(after, ok) := CutPrefix pattern (lit "~") in
      if ok then
        let '(patternMajor, patternMinor) := ExtractMajorMinor after in
        let '(tagMajor, tagMinor) := ExtractMajorMinor tagVersion in
        (tagMajor =? patternMajor) && (tagMinor =? patternMinor)
      else false.

Definition fetchMatchingTags (fuel : nat) (c : Client) (owner repo pattern : gostring)
    : option (Client * list tagInfo * option error) :=
  paginateTags fuel c owner repo
    (λ matching t,
      (if matchesVersionPattern (GetName t) pattern
       then matching ++ [{| tag := GetName t; hash := GetSHA t |}]
       else matching, true))
    [].

Definition GetLatestVersion (fuel : nat) (c : Client)
    (owner repo currentVersion versionPattern : gostring)
    : option (Client * (gostring * gostring * option error)) :=
  let key := NewConstrainedKey owner repo currentVersion versionPattern in
  let '(ch, (result, ok)) := GetConstrained (cache c) key in
  let c := withCache c ch in
  if ok then Some (c, (Tag result, Hash result, Err result))
  else
    match fetchMatchingTags fuel c owner repo versionPattern with
    | None => None
    | Some (c, _, Some err) =>
      Some (withCache c (SetConstrained (cache c) key (NewVersionResult [] [] (Some err))),
            ([], [], Some err))
    | Some (c, [], None) =>
      let err := lit "no compatible tags found for pattern " ++ versionPattern in
      Some (withCache c (SetConstrained (cache c) key (NewVersionResult [] [] (Some err))),
            ([], [], Some err))
    | Some (c, t0 :: tags, None) =>
      let latest :=
        fold_left (λ latest t, if Compare (tag t) (tag latest) >? 0 then t else latest) tags t0 in
      Some (withCache c (SetConstrained (cache c) key
                           (NewVersionResult (tag latest) (hash latest) None)),
            (tag latest, hash latest, None))
    end.

Definition GetLatestMinorVersion (fuel : nat) (c : Client) (owner repo majorVersion : gostring)
    : option (Client * (gostring * gostring * option error)) :=
  let majorVersion := Normalize majorVersion in
  let prefix := lit "v" ++ majorVersion ++ lit "." in
  match
    paginateTags fuel c owner repo
      (λ (latest : option tagInfo) t,
        let name := GetName t in
        (if HasPrefix name prefix || bool_decide (name = lit "v" ++ majorVersion) then
           match latest with
           | None => Some {| tag := name; hash := GetSHA t |}
           | Some l =>
             if Compare name (tag l) >? 0 then Some {| tag := name; hash := GetSHA t |}
             else latest
           end
         else latest, true))
      None
  with
  | None => None
  | Some (c, _, Some err) => Some (c, ([], [], Some err))
  | Some (c, None, None) =>
    Some (c, ([], [], Some (lit "no tags found for major version v" ++ majorVersion)))
  | Some (c, Some latest, None) => Some (c, (tag latest, hash latest, None))
  end.

Definition GetCommitHash (fuel : nat) (c : Client) (owner repo ref : gostring)
    : option (Client * (gostring * option error)) :=
  if IsCommitHash ref then Some (c, (ref, None))
  else
    let ref := TrimPrefix ref (lit "refs/") in
    let direct (c : Client) :=
      let c := getGitHubClient c in
      let byTag := GetRef (requests c) owner repo (lit "refs/tags/" ++ ref) in
      let c := sent c in
      match byTag with
      | inr (Some sha) => Some (c, (sha, None))
      | _ =>
        let byBranch := GetRef (requests c) owner repo (lit "refs/heads/" ++ ref) in
        let c := sent c in
        match byBranch with
        | inl err => Some (c, ([], Some (lit "failed to fetch ref " ++ ref ++ lit ": " ++ err)))
        | inr None => Some (c, ([], Some (lit "ref not found: " ++ ref)))
        | inr (Some sha) => Some (c, (sha, None))
        end
      end in
    if IsMajorVersionOnly ref then
      match GetLatestMinorVersion fuel c owner repo ref with
      | None => None
      | Some (c, (_, h, None)) => Some (c, (h, None))
      | Some (c, (_, _, Some _)) => direct c
      end
    else direct c.

(** [GetTagForCommit]: the callback stops the pagination at the first
    tag of the commit. *)
Definition GetTagForCommit (fuel : nat) (c : Client) (owner repo commitHash : gostring)
    : option (Client * (gostring * option error)) :=
  match
    paginateTags fuel c owner repo
      (λ (found : gostring) t,
        if bool_decide (GetSHA t = commitHash) then (GetName t, false) else (found, true))
      []
  with
  | None => None
  | Some (c, found, err) => Some (c, (found, err))
  end.

End client.

(** The latest release of a repository: [Repositories.GetLatestRelease]
    answers with an error or with the tag name of the release, [None]
    standing for a [nil] release and for a [nil] tag name. *)
Class ReleasesAPI := {
  GetLatestRelease : nat → gostring → gostring → error + option gostring
}.

Section releases.
Context `{Version} `{GitHubAPI} `{ReleasesAPI}.

Definition tryGetLatestRelease (fuel : nat) (c : Client) (owner repo : gostring)
    : option (Client * (gostring * gostring * bool)) :=
  let c := getGitHubClient c in
  let resp := GetLatestRelease (requests c) owner repo in
  let c := sent c in
  match resp with
  | inr (Some tag) =>
    match GetCommitHash fuel c owner repo tag with
    | None => None
    | Some (c, (hash, None)) => Some (c, (tag, hash, true))
    | Some (c, (_, Some _)) => Some (c, ([], [], false))
    end
  | _ => Some (c, ([], [], false))
  end.

Definition getLatestVersionFromTags (fuel : nat) (c : Client) (owner repo : gostring)
    (key : VersionKey) : option (Client * (gostring * gostring * option error)) :=
  match
    paginateTags fuel c owner repo
      (λ (latest : option tagInfo) t,
        let name := GetName t in
        (match latest with
         | None => Some {| tag := name; hash := GetSHA t |}
         | Some l =>
           if Compare name (tag l) >? 0 then Some {| tag := name; hash := GetSHA t |}
           else latest
         end, true))
      None
  with
  | None => None
  | Some (c, _, Some err) =>
    Some (withCache c (SetUnconstrained (cache c) key (NewVersionResult [] [] (Some err))),
          ([], [], Some err))
  | Some (c, None, None) =>
    let err := lit "no tags found" in
    Some (withCache c (SetUnconstrained (cache c) key (NewVersionResult [] [] (Some err))),
          ([], [], Some err))
  | Some (c, Some latest, None) =>
    Some (withCache c (SetUnconstrained (cache c) key
                         (NewVersionResult (tag latest) (hash latest) None)),
          (tag latest, hash latest, None))
  end.

Definition GetLatestVersionUnconstrained (fuel : nat) (c : Client) (owner repo : gostring)
    : option (Client * (gostring * gostring * option error)) :=
  let key := NewUnconstrainedKey owner repo in
  let '(ch, (result, ok)) := GetUnconstrained (cache c) key in
  let c := withCache c ch in
  if ok then Some (c, (Tag result, Hash result, Err result))
  else
    match tryGetLatestRelease fuel c owner repo with
    | None => None
    | Some (c, (tag, hash, true)) =>
      Some (withCache c (SetUnconstrained (cache c) key (NewVersionResult tag hash None)),
            (tag, hash, None))
    | Some (c, (_, _, false)) => getLatestVersionFromTags fuel c owner repo key
    end.

End releases.

End Actions.

(** ** Package [actions]: parsing an action reference (parser.go) *)

Module Parser.

Abbreviation error := gostring.

Record ActionInfo := {
  Owner : gostring;
  Repo : gostring;
  Path : gostring;
  Ref : gostring
}.

Definition ParseActionUses (uses : gostring) : error + ActionInfo :=
  let atIdx := LastIndex uses (lit "@") in
  if atIdx =? -1 then inl (lit "invalid action format: " ++ uses)
  else
    let actionPath := take (Z.to_nat atIdx) uses in
    let ref := drop (Z.to_nat (atIdx + 1)) uses in
    let firstSlash := Index actionPath (lit "/") in
    if firstSlash =? -1 then inl (lit "invalid action path: " ++ actionPath)
    else
      let owner := take (Z.to_nat firstSlash) actionPath in
      let rest := drop (Z.to_nat (firstSlash + 1)) actionPath in
      let secondSlash := Index rest (lit "/") in
      let '(repo, path) :=
        if secondSlash =? -1 then (rest, [])
        else (take (Z.to_nat secondSlash) rest, drop (Z.to_nat (secondSlash + 1)) rest) in
      inr {| Owner := owner; Repo := repo; Path := path; Ref := ref |}.

End Parser.

(** ** Package [workflow] *)

Module Workflow.

Abbreviation error := gostring.

(** The file system, as far as the fixers use it: [os.WriteFile] on a
    disk of type [Disk]. *)
Class FileSystem (Disk : Type) := {
  WriteFile : Disk → gostring → gostring → Disk * option error
}.

(** The parsed summary; of its fields ([Name], [On], [Jobs],
    [Permissions]) the functions below read [Name] only.  The field
    [Content] of a workflow is [Content_] here, the name being taken by
    the type. *)
Record Content := {
  Name : gostring
}.

(** [node] tells whether the parsed YAML tree is cached (not [nil]). *)
Record Workflow := {
  File : gostring;
  Content_ : option Content;
  RawBytes : gostring;
  node : bool
}.

Definition Lines (w : Workflow) : list gostring := Split (RawBytes w) [LF].

Definition invalidateNode (w : Workflow) : Workflow :=
  {| File := File w; Content_ := Content_ w; RawBytes := RawBytes w; node := false |}.

Definition setRawBytes (w : Workflow) (raw : gostring) : Workflow :=
  {| File := File w; Content_ := Content_ w; RawBytes := raw; node := node w |}.

(** The body of the loop of [UpdateActionUses] for a line that contains
    [oldUses]. *)
Definition updatedLine (oldUses newUses comment line : gostring) : gostring :=
  let newLine := ReplaceFirst line oldUses newUses in
  let idx := Index newLine (lit " #") in
  let newLine := if negb (idx =? -1) then take (Z.to_nat idx) newLine else newLine in
  let newLine := TrimRight newLine [SP; TAB] in
  if negb (bool_decide (comment = [])) then newLine ++ lit " # " ++ comment else newLine.

(** [for i, line := range lines { ... lines[i] = newLine; updated = true }];
    [todo] is what remains of the range, [i] its position. *)
Fixpoint updateLines (oldUses newUses comment : gostring) (i : nat) (todo lines : list gostring)
    (updated : bool) : list gostring * bool :=
  match todo with
  | [] => (lines, updated)
  | line :: todo' =>
    if Contains line oldUses then
      updateLines oldUses newUses comment (S i) todo'
        (<[i := updatedLine oldUses newUses comment line]> lines) true
    else updateLines oldUses newUses comment (S i) todo' lines updated
  end.

Definition UpdateActionUses {Disk} `{FileSystem Disk} (w : Workflow) (d : Disk)
    (oldUses newUses comment : gostring) : Workflow * Disk * option error :=
  let lines := Split (RawBytes w) [LF] in
  let '(lines, updated) := updateLines oldUses newUses comment 0 lines lines false in
  if negb updated then (w, d, Some (lit "action " ++ oldUses ++ lit " not found"))
  else
    let w := invalidateNode (setRawBytes w (Join lines [LF])) in
    let '(d, err) := WriteFile d (File w) (RawBytes w) in
    (w, d, err).

Definition BaseName (w : Workflow) : gostring := Base (File w).

Definition isVersionTag (s : gostring) : bool :=
  if len s =? 0 then false
  else
    let s0 := code (byteAt s 0) in
    let unprefixed := (48 <=? s0) && (s0 <=? 57) in
    if (s0 =? 118) || (s0 =? 86) then
      if (1 <? len s) && (48 <=? code (byteAt s 1)) && (code (byteAt s 1) <=? 57) then true
      else unprefixed
    else unprefixed.

(** The body of the loop of [NormalizeCommentSpacing]: the line the turn
    writes, [None] when it writes none. *)
Definition normalizedLine (line : gostring) : option gostring :=
  if negb (Contains line (lit "uses:")) then None
  else
    let idx := Index line (lit " #") in
    if idx =? -1 then None
    else
      let commentStart := Index (drop (Z.to_nat idx) line) (lit "#") in
      let comment := TrimSpace (drop (Z.to_nat (idx + commentStart + 1)) line) in
      if negb (isVersionTag comment) then None
      else
        let beforeComment := TrimRight (take (Z.to_nat idx) line) [SP; TAB] in
        let fullComment := drop (Z.to_nat (idx + commentStart)) line in
        let newLine := beforeComment ++ lit " " ++ fullComment in
        if negb (bool_decide (newLine = line)) then Some newLine else None.

(** [for i, line := range lines { ... lines[i] = newLine; modified = true }] *)
Fixpoint normalizeLines (i : nat) (todo lines : list gostring) (modified : bool)
    : list gostring * bool :=
  match todo with
  | [] => (lines, modified)
  | line :: todo' =>
    match normalizedLine line with
    | Some newLine => normalizeLines (S i) todo' (<[i := newLine]> lines) true
    | None => normalizeLines (S i) todo' lines modified
    end
  end.

Definition NormalizeCommentSpacing (w : Workflow) : Workflow * bool :=
  let lines := Split (RawBytes w) [LF] in
  let '(lines, modified) := normalizeLines 0 lines lines false in
  if modified then (invalidateNode (setRawBytes w (Join lines [LF])), true)
  else (w, false).

(** [for i, line := range lines { if strings.HasPrefix(line, prefix) { return i + 1 } }; return 0] *)
Fixpoint findJobFrom (prefix : gostring) (i : Z) (lines : list gostring) : Z :=
  match lines with
  | [] => 0
  | line :: lines' =>
    if HasPrefix line prefix then i + 1 else findJobFrom prefix (i + 1) lines'
  end.

Definition FindJobLine (w : Workflow) (jobID : gostring) : Z :=
  let lines := Lines w in
  let prefix := lit "  " ++ jobID ++ lit ":" in
  findJobFrom prefix 0 lines.

(** The variables of the loop of [FindStepLine]. *)
Record stepScan := {
  inJob : bool;
  inSteps : bool;
  stepCount : Z
}.

(** The loop of [FindStepLine] from line [i] on; leaving the loop by
    [break] returns 0 as its end does. *)
Fixpoint findStepFrom (jobPrefix : gostring) (stepIndex : Z) (i : Z) (lines : list gostring)
    (st : stepScan) : Z :=
  match lines with
  | [] => 0
  | line :: lines' =>
    if HasPrefix line jobPrefix then
      findStepFrom jobPrefix stepIndex (i + 1) lines'
        {| inJob := true; inSteps := inSteps st; stepCount := stepCount st |}
    else if inJob st then
      let trimmed := TrimSpace line in
      if (0 <? len line) && negb (HasPrefix line (lit " ")) then 0
      else if HasPrefix trimmed (lit "steps:") then
        findStepFrom jobPrefix stepIndex (i + 1) lines'
          {| inJob := inJob st; inSteps := true; stepCount := stepCount st |}
      else if inSteps st && HasPrefix trimmed (lit "- ") then
        if stepCount st =? stepIndex then i + 1
        else
          findStepFrom jobPrefix stepIndex (i + 1) lines'
            {| inJob := inJob st; inSteps := inSteps st; stepCount := stepCount st + 1 |}
      else findStepFrom jobPrefix stepIndex (i + 1) lines' st
    else findStepFrom jobPrefix stepIndex (i + 1) lines' st
  end.

Definition FindStepLine (w : Workflow) (jobID : gostring) (stepIndex : Z) : Z :=
  let lines := Lines w in
  let jobPrefix := lit "  " ++ jobID ++ lit ":" in
  findStepFrom jobPrefix stepIndex 0 lines {| inJob := false; inSteps := false; stepCount := 0 |}.

End Workflow.

(** ** Package [config] *)

Module Config.

Abbreviation error := gostring.

Definition defaultLinterDefault : gostring := lit "all".

Record LinterConfig := {
  Default : gostring;
  Enable : list gostring;
  Disable : list gostring
}.

(** Of the configuration the orchestrator reads [Linters] only. *)
Record Config := {
  Linters : option LinterConfig
}.

(** [slices.Contains] *)
Definition slicesContains (l : list gostring) (x : gostring) : bool := bool_decide (x ∈ l).

Definition IsLinterEnabled (c : Config) (linterName : gostring) : bool :=
  match Linters c with
  | None => true
  | Some l =>
    if slicesContains (Disable l) linterName then false
    else if bool_decide (Default l = defaultLinterDefault) then true
    else slicesContains (Enable l) linterName
  end.

Record FormatSettings := {
  IndentWidth : Z;
  MaxLineLength : Z
}.

Record StyleSettings := {
  MinNameLength : Z;
  MaxNameLength : Z;
  NamingConvention : gostring;
  CheckoutFirst : bool;
  RequireStepNames : bool;
  MaxRunLines : Z
}.

Record RunConfig := {
  Timeout : gostring;
  IssuesExitCode : Z
}.

Definition DefaultIssuesExitCode : Z := 1.

(** [Config.GetIssuesExitCode], as a function of the field [Run] of the
    configuration, the only one it reads. *)
Definition GetIssuesExitCode (run : option RunConfig) : Z :=
  match run with
  | None => DefaultIssuesExitCode
  | Some r =>
    if (IssuesExitCode r <=? 0) || (255 <? IssuesExitCode r) then DefaultIssuesExitCode
    else IssuesExitCode r
  end.

Definition NormalizeActionName (uses : gostring) : gostring :=
  let '(name, _, ok) := Cut uses (lit "@") in
  if ok then name else uses.

Section upgrade.
Context `{Version}.

Definition matchesMajorPattern (newVersion patternVersion : gostring) : bool :=
  let patternMajor := ExtractMajor patternVersion in
  let newMajor := ExtractMajor newVersion in
  if patternMajor =? 1 then newMajor >=? 1
  else newMajor =? patternMajor.

Definition matchesMinorPattern (newVersion patternVersion : gostring) : bool :=
  let '(patternMajor, patternMinor) := ExtractMajorMinor patternVersion in
  let '(newMajor, newMinor) := ExtractMajorMinor newVersion in
  (newMajor =? patternMajor) && (newMinor =? patternMinor).

Definition ShouldUpdate (currentVersion newVersion pattern : gostring) : bool :=
  if Compare newVersion currentVersion <=? 0 then false
  else if bool_decide (pattern = []) then true
  else
    let '(after, ok) := CutPrefix pattern (lit "^") in
    if ok then matchesMajorPattern newVersion after
    else
      let '(after, ok) := CutPrefix pattern (lit "~") in
      if ok then matchesMinorPattern newVersion after
      else false.

End upgrade.

End Config.

(** ** Package [stringutil] *)

Module Stringutil.

Definition IsBlankOrComment (line : gostring) : bool :=
  let trimmed := TrimSpace line in
  bool_decide (trimmed = []) || HasPrefix trimmed (lit "#").

Definition CountLeadingSpaces (line : gostring) : Z := len line - len (TrimLeft line [SP]).

End Stringutil.

(** ** Package [linter] *)

Module Linter.

Import Workflow Config.

(** *** Issues *)

Record Issue := {
  File : gostring;
  Line : Z;
  Linter : gostring;
  Message : gostring
}.

#[global] Instance Issue_eq_dec : EqDecision Issue.
Proof. solve_decision. Defined.

Definition setLinter (i : Issue) (name : gostring) : Issue :=
  {| File := File i; Line := Line i; Linter := name; Message := Message i |}.

(** [newIssue]; the [*Issue] it returns is [None] when it is [nil]. *)
Definition newIssue (file : gostring) (line : Z) (message : gostring) : option Issue :=
  if bool_decide (message = []) then None
  else Some {| File := file; Line := line; Linter := []; Message := message |}.

(** [Issue.Key]: [fmt.Sprintf("%s:%d:%s:%s", i.File, i.Line, i.Linter, i.Message)] *)
Definition Key (i : Issue) : gostring :=
  File i ++ lit ":" ++ itoa (Line i) ++ lit ":" ++ Linter i ++ lit ":" ++ Message i.

(** *** The format linter: [FixWorkflow] *)

Record FormatLinter := {
  settings : option FormatSettings
}.

Definition countLeadingSpaces (line : gostring) : Z := len line - len (TrimLeft line [SP]).

(** The lengths below are lengths of lines held in memory, far from the
    bounds of [int], so the sums are written without wrap-around. *)
Definition fixIndentation (l : FormatLinter) (line : gostring) (prevIndent : Z) : gostring :=
  match settings l with
  | None => line
  | Some st =>
    if IndentWidth st <=? 0 then line
    else if Stringutil.IsBlankOrComment line then line
    else
      let leadingSpaces := countLeadingSpaces line in
      if leadingSpaces <=? prevIndent then line
      else
        let increase := leadingSpaces - prevIndent in
        if increase <=? IndentWidth st then line
        else
          let correctIndent := prevIndent + IndentWidth st in
          Repeat [SP] correctIndent ++ TrimLeft line [SP; TAB]
  end.

(** The variables of the loop of [fixLines]. *)
Record fixState := {
  fixed : list gostring;
  prevWasBlank : bool;
  prevIndent : Z
}.

(** One turn of the loop of [fixLines]. *)
Definition fixLine (l : FormatLinter) (st : fixState) (line : gostring) : fixState :=
  let line := TrimRight line [SP; TAB] in
  let line := fixIndentation l line (prevIndent st) in
  let isBlank := bool_decide (TrimSpace line = []) in
  if isBlank then
    {| fixed := if negb (prevWasBlank st) then fixed st ++ [line] else fixed st;
       prevWasBlank := true;
       prevIndent := prevIndent st |}
  else
    {| fixed := fixed st ++ [line];
       prevWasBlank := false;
       prevIndent := countLeadingSpaces line |}.

Definition fixLines (l : FormatLinter) (lines : list gostring) : list gostring :=
  fixed (fold_left (fixLine l) lines {| fixed := []; prevWasBlank := false; prevIndent := 0 |}).

(** [for len(fixed) > 0 && strings.TrimSpace(fixed[len(fixed)-1]) == "" { fixed = fixed[:len(fixed)-1] }] *)
Fixpoint removeTrailingEmpty (fuel : nat) (fixed : list gostring) : list gostring :=
  match fuel with
  | O => fixed
  | S fuel' =>
    if (0 <? length fixed)%nat && bool_decide (TrimSpace (default [] (last fixed)) = [])
    then removeTrailingEmpty fuel' (take (length fixed - 1) fixed)
    else fixed
  end.

Definition fixWorkflow {Disk} `{FileSystem Disk} (l : FormatLinter) (wf : Workflow) (d : Disk)
    : Workflow * Disk * option error :=
  let lines := Lines wf in
  let fixed := fixLines l lines in
  let fixed := removeTrailingEmpty (length fixed) fixed in
  let content := Join fixed [LF] ++ [LF] in
  let wf := setRawBytes wf content in
  let '(d, err) := WriteFile d (Workflow.File wf) (RawBytes wf) in
  (wf, d, err).

Definition FixWorkflow {Disk} `{FileSystem Disk} (l : FormatLinter) (wf : Workflow) (d : Disk)
    : Workflow * Disk * option error :=
  fixWorkflow l wf d.

(** *** The format linter: [lintWorkflow]

    The issues are built in place, with no linter name; a [*Issue] that
    may be [nil] is an [option]. *)

Definition hasTrailingWhitespace (line : gostring) : bool :=
  HasSuffix line [SP] || HasSuffix line [TAB].

Definition checkLineLength (l : FormatLinter) (line file : gostring) (lineNum : Z)
    : option Issue :=
  match settings l with
  | None => None
  | Some st =>
    if MaxLineLength st <=? 0 then None
    else if MaxLineLength st <? len line then
      Some {| File := file; Line := lineNum; Linter := [];
              Message := lit "Line exceeds maximum length of " ++ itoa (MaxLineLength st)
                         ++ lit " characters (found " ++ itoa (len line) ++ lit ")" |}
    else None
  end.

Definition checkIndentation (l : FormatLinter) (line file : gostring)
    (lineNum leadingSpaces minIndent prevIndent : Z) : option Issue :=
  match settings l with
  | None => None
  | Some st =>
    if IndentWidth st <=? 0 then None
    else if HasPrefix line [TAB] then
      Some {| File := file; Line := lineNum; Linter := [];
              Message := lit "Line uses tabs for indentation, expected "
                         ++ itoa (IndentWidth st) ++ lit " spaces" |}
    else if (0 <? leadingSpaces) && negb (Z.rem leadingSpaces (IndentWidth st) =? 0) then
      Some {| File := file; Line := lineNum; Linter := [];
              Message := lit "Line indentation is " ++ itoa leadingSpaces
                         ++ lit " spaces, expected multiple of " ++ itoa (IndentWidth st) |}
    else if (0 <? minIndent) && negb (minIndent =? IndentWidth st)
            && (leadingSpaces =? minIndent) then
      Some {| File := file; Line := lineNum; Linter := [];
              Message := lit "Line uses " ++ itoa leadingSpaces
                         ++ lit " spaces for base indentation, expected "
                         ++ itoa (IndentWidth st) ++ lit " spaces" |}
    else if prevIndent <? leadingSpaces then
      let increase := leadingSpaces - prevIndent in
      if negb (increase =? IndentWidth st) then
        Some {| File := file; Line := lineNum; Linter := [];
                Message := lit "Line indentation increased by " ++ itoa increase
                           ++ lit " spaces, expected increase of " ++ itoa (IndentWidth st)
                           ++ lit " (should be " ++ itoa (prevIndent + IndentWidth st)
                           ++ lit " spaces)" |}
      else None
    else None
  end.

Definition findMinIndentation (l : FormatLinter) (lines : list gostring) : Z :=
  fold_left
    (λ minIndent line,
      if Stringutil.IsBlankOrComment line then minIndent
      else
        let spaces := countLeadingSpaces line in
        if 0 <? spaces then
          if (minIndent =? -1) || (spaces <? minIndent) then spaces else minIndent
        else minIndent)
    lines (-1).

(** The variables of the loop of [lintWorkflow]: [issues], [prevIndent]
    and [prevWasBlank]. *)
Record lintState := {
  lintIssues : list Issue;
  lintPrevIndent : Z;
  lintPrevWasBlank : bool
}.

(** One turn of the loop of [lintWorkflow], for the line of index [i]. *)
Definition lintLine (l : FormatLinter) (file : gostring) (minIndent : Z) (st : lintState)
    (i : Z) (line : gostring) : lintState :=
  let lineNum := i + 1 in
  let trimmed := TrimSpace line in
  let isBlank := bool_decide (trimmed = []) in
  let isComment := HasPrefix trimmed (lit "#") in
  let leadingSpaces := countLeadingSpaces line in
  let issues := lintIssues st in
  let issues :=
    if isBlank && lintPrevWasBlank st then
      issues ++ [{| File := file; Line := lineNum; Linter := [];
                    Message := lit "Multiple consecutive blank lines found" |}]
    else issues in
  let issues :=
    if hasTrailingWhitespace line then
      issues ++ [{| File := file; Line := lineNum; Linter := [];
                    Message := lit "Line has trailing whitespace" |}]
    else issues in
  let issues :=
    match checkLineLength l line file lineNum with
    | Some issue => issues ++ [issue]
    | None => issues
    end in
  if negb isBlank && negb isComment then
    let issues :=
      match checkIndentation l line file lineNum leadingSpaces minIndent (lintPrevIndent st) with
      | Some issue => issues ++ [issue]
      | None => issues
      end in
    {| lintIssues := issues; lintPrevIndent := leadingSpaces; lintPrevWasBlank := isBlank |}
  else
    {| lintIssues := issues; lintPrevIndent := lintPrevIndent st; lintPrevWasBlank := isBlank |}.

Fixpoint lintLines (l : FormatLinter) (file : gostring) (minIndent : Z) (i : Z)
    (lines : list gostring) (st : lintState) : lintState :=
  match lines with
  | [] => st
  | line :: lines' =>
    lintLines l file minIndent (i + 1) lines' (lintLine l file minIndent st i line)
  end.

Definition lintWorkflow (l : FormatLinter) (wf : Workflow) : list Issue :=
  let file := Base (Workflow.File wf) in
  let lines := Lines wf in
  let minIndent := findMinIndentation l lines in
  lintIssues
    (lintLines l file minIndent 0 lines
       {| lintIssues := []; lintPrevIndent := 0; lintPrevWasBlank := false |}).

(** *** The style linter: the checks on names

    A [[]*Issue] is a list of pointers, [None] being [nil]. *)

Record StyleLinter := {
  styleSettings : StyleSettings
}.

Definition ctxWorkflow : gostring := lit "Workflow".
Definition ctxJob : gostring := lit "Job".
Definition ctxStep : gostring := lit "Step".

Definition checkNameLength (l : StyleLinter) (name file : gostring) (line : Z)
    (context : gostring) : option Issue :=
  let st := styleSettings l in
  let msg :=
    if (0 <? MinNameLength st) && (len name <? MinNameLength st) then
      context ++ lit " name '" ++ name ++ lit "' is too short (min "
        ++ itoa (MinNameLength st) ++ lit " chars)"
    else if (0 <? MaxNameLength st) && (MaxNameLength st <? len name) then
      context ++ lit " name exceeds maximum length of "
        ++ itoa (MaxNameLength st) ++ lit " characters"
    else [] in
  newIssue file line msg.

(** [len(word) > 0 && !unicode.IsUpper(rune(word[0]))] *)
Definition startsLower (word : gostring) : bool :=
  (0 <? len word) && negb (IsUpper (code (byteAt word 0))).

Definition checkNamingConvention (l : StyleLinter) (name file : gostring) (line : Z)
    (context : gostring) : option Issue :=
  let st := styleSettings l in
  if bool_decide (NamingConvention st = []) then None
  else
    let words := Fields name in
    if (length words =? 0)%nat then None
    else
      let msg :=
        if bool_decide (NamingConvention st = lit "title") then
          if existsb startsLower words then context ++ lit " name should use Title Case"
          else []
        else if bool_decide (NamingConvention st = lit "sentence") then
          if startsLower (default [] (head words)) then
            context ++ lit " name should start with uppercase (sentence case)"
          else []
        else [] in
      newIssue file line msg.

Definition checkWorkflowName (l : StyleLinter) (wf : Workflow) (file : gostring)
    : list (option Issue) :=
  let issues : list (option Issue) := [] in
  match Content_ wf with
  | Some content =>
    if bool_decide (Name content = []) then
      issues ++ [newIssue file 1 (lit "Workflow is missing a name")]
    else
      let issues :=
        match checkNameLength l (Name content) file 1 ctxWorkflow with
        | Some issue => issues ++ [Some issue]
        | None => issues
        end in
      match checkNamingConvention l (Name content) file 1 ctxWorkflow with
      | Some issue => issues ++ [Some issue]
      | None => issues
      end
  | None => issues ++ [newIssue file 1 (lit "Workflow is missing a name")]
  end.

(** *** The orchestrator *)

(** The plugin interface, as far as [Lint] uses it.  Every plugin of the
    repository builds its issues afresh in each call and returns no [nil]
    among them, so they are values here. *)
Record LinterPlugin := {
  LintWorkflow : Workflow → list Issue * option error
}.

Record WorkflowLinter := {
  workflows : list Workflow;
  configFile : gostring;
  cfg : option Config;
  linters : gmap gostring LinterPlugin
}.

(** What [Lint] needs of its surroundings: [config.LoadConfig], the
    plugins [createLinters] builds for a configuration, and the order in
    which the [range] over the map of plugins yields them on its [n]-th
    run. *)
Class Surroundings := {
  LoadConfig : gostring → error + Config;
  createLinters : Config → gmap gostring LinterPlugin;
  rangeLinters : nat → gmap gostring LinterPlugin → list (gostring * LinterPlugin)
}.

Section orchestrator.
Context `{Surroundings}.

(** The inner loop of [Lint]: the plugins on one workflow. *)
Fixpoint runLinters (c : Config) (wf : Workflow) (entries : list (gostring * LinterPlugin))
    (allIssues : list Issue) : list Issue * option error :=
  match entries with
  | [] => (allIssues, None)
  | (name, linter) :: entries' =>
    if negb (IsLinterEnabled c name) then runLinters c wf entries' allIssues
    else
      let '(issues, err) := LintWorkflow linter wf in
      match err with
      | Some e =>
        ([], Some (lit "linter " ++ name ++ lit " failed on " ++ Workflow.File wf ++ lit ": " ++ e))
      | None => runLinters c wf entries' (allIssues ++ ((λ issue, setLinter issue name) <$> issues))
      end
  end.

(** The outer loop of [Lint]; [n] counts the workflows done. *)
Fixpoint eachWorkflow (c : Config) (ls : gmap gostring LinterPlugin) (n : nat)
    (wfs : list Workflow) (allIssues : list Issue) : list Issue * option error :=
  match wfs with
  | [] => (allIssues, None)
  | wf :: wfs' =>
    match runLinters c wf (rangeLinters n ls) allIssues with
    | (_, Some e) => ([], Some e)
    | (allIssues, None) => eachWorkflow c ls (S n) wfs' allIssues
    end
  end.

(** The start of [Lint] and of [Fix]: the configuration is loaded if it
    has not been, and the plugins are built again from it. *)
Definition ensureConfig (l : WorkflowLinter) : error + WorkflowLinter * Config :=
  match cfg l with
  | Some c => inr (l, c)
  | None =>
    match LoadConfig (configFile l) with
    | inl err => inl (lit "failed to load config: " ++ err)
    | inr c =>
      inr ({| workflows := workflows l; configFile := configFile l; cfg := Some c;
              linters := createLinters c |}, c)
    end
  end.

Definition Lint (l : WorkflowLinter) : WorkflowLinter * (list Issue * option error) :=
  match ensureConfig l with
  | inl err => (l, ([], Some err))
  | inr (l, c) => (l, eachWorkflow c (linters l) 0 (workflows l) [])
  end.

End orchestrator.

End Linter.

(** ** Package [cmd] *)

Module Cmd.

Import Linter.

(** The issues are dereferenced for their keys, so none of them is [nil]. *)
Definition classifyIssues (original remaining : list Issue) : list Issue * list Issue :=
  let remainingKeys : gmap gostring bool :=
    fold_left (λ keys issue, <[Key issue := true]> keys) remaining ∅ in
  fold_left
    (λ '(fixed, unfixed) issue,
      if default false (remainingKeys !! Key issue) then (fixed, unfixed ++ [issue])
      else (fixed ++ [issue], unfixed))
    original ([], []).

End Cmd.

(** ** The vocabulary of the properties *)

Module Props.

Import Actions.

(** The two keys differ in exactly one of their four components. *)
Definition changedOne (k k' : VersionKey) : Prop :=
  (Owner k ≠ Owner k' ∧ Repo k = Repo k' ∧ Ref k = Ref k' ∧ Pattern k = Pattern k')
  ∨ (Owner k = Owner k' ∧ Repo k ≠ Repo k' ∧ Ref k = Ref k' ∧ Pattern k = Pattern k')
  ∨ (Owner k = Owner k' ∧ Repo k = Repo k' ∧ Ref k ≠ Ref k' ∧ Pattern k = Pattern k')
  ∨ (Owner k = Owner k' ∧ Repo k = Repo k' ∧ Ref k = Ref k' ∧ Pattern k ≠ Pattern k').

(** A sequence of calls of [GetLatestVersion] with the same four
    arguments, one fuel per call, and what the calls return. *)
Fixpoint lookups `{Version} `{GitHubAPI} (fuels : list nat) (c : Client)
    (owner repo currentVersion versionPattern : gostring)
    : option (Client * list (gostring * gostring * option error)) :=
  match fuels with
  | [] => Some (c, [])
  | fuel :: fuels' =>
    match GetLatestVersion fuel c owner repo currentVersion versionPattern with
    | None => None
    | Some (c', r) =>
      match lookups fuels' c' owner repo currentVersion versionPattern with
      | None => None
      | Some (c'', rs) => Some (c'', r :: rs)
      end
    end
  end.

(** The call stores a result under a key that satisfies [p]. *)
Definition storesUnder (p : VersionKey → bool) (o : op) : bool :=
  match o with
  | OpSetConstrained key _ | OpSetUnconstrained key _ => p key
  | _ => false
  end.

(** The sequence without the calls that store under a key satisfying [p]. *)
Definition withoutStores (p : VersionKey → bool) (ops : list op) : list op :=
  filter (λ o, storesUnder p o = false) ops.

Definition isUnconstrainedKeyOf (owner repo : gostring) (k : VersionKey) : bool :=
  bool_decide (k = NewUnconstrainedKey owner repo).

Definition isConstrainedKeyOf (owner repo : gostring) (k : VersionKey) : bool :=
  bool_decide (Owner k = owner) && bool_decide (Repo k = repo) && IsConstrained k.

Definition isGet (o : op) : bool :=
  match o with
  | OpGetConstrained _ | OpGetUnconstrained _ => true
  | _ => false
  end.

(** A string of 40 hexadecimal digits. *)
Definition hexDigits : gostring := lit "0123456789abcdefABCDEF".

Definition hexString40 (ref : gostring) : Prop :=
  length ref = 40%nat ∧ Forall (λ c, c ∈ hexDigits) ref.

(** [sub] occurs in [s]. *)
Definition substring (sub s : gostring) : Prop := ∃ pre post, s = pre ++ sub ++ post.

(** [s] is [pre ++ sub ++ post] and [sub] does not occur earlier in [s]. *)
Definition firstOccurrence (sub s pre post : gostring) : Prop :=
  s = pre ++ sub ++ post
  ∧ ∀ pre' post', s = pre' ++ sub ++ post' → (length pre ≤ length pre')%nat.

(** [kept] is [s] without its line comment: what comes before the first
    [" #"], or all of [s] when it has none. *)
Definition withoutComment (s kept : gostring) : Prop :=
  (¬ substring (lit " #") s ∧ kept = s) ∨ (∃ post, firstOccurrence (lit " #") s kept post).

(** The line [UpdateActionUses] is to write for a line in which [oldUses]
    occurs. *)
Definition rewritten (oldUses newUses comment line newLine : gostring) : Prop :=
  ∃ pre post kept,
    firstOccurrence oldUses line pre post
    ∧ withoutComment (pre ++ newUses ++ post) kept
    ∧ newLine = TrimRight kept [SP; TAB]
                ++ (if bool_decide (comment = []) then [] else lit " # " ++ comment).

(** [s] cut at every byte [c]. *)
Fixpoint splitOn (c : ascii) (s : gostring) : list gostring :=
  match s with
  | [] => [[]]
  | x :: s' =>
    if decide (x = c) then [] :: splitOn c s'
    else
      match splitOn c s' with
      | h :: t => (x :: h) :: t
      | [] => [[x]]
      end
  end.

Definition isBlankLine (line : gostring) : bool := bool_decide (TrimSpace line = []).

(** The lines without the blank lines at their end. *)
Definition withoutTrailingBlank (ls : list gostring) : list gostring :=
  rev (dropWhile isBlankLine (rev ls)).

(** The content [FixWorkflow] of the format linter leaves in [RawBytes]. *)
Definition fixContent (l : Linter.FormatLinter) (raw : gostring) : gostring :=
  let fixed := Linter.fixLines l (Split raw [LF]) in
  Join (Linter.removeTrailingEmpty (length fixed) fixed) [LF] ++ [LF].

(** The issues one plugin contributes for one workflow, tagged with the
    name the plugin is registered under; none when it is not enabled. *)
Definition pluginIssues (c : Config.Config) (wf : Workflow.Workflow)
    (entry : gostring * Linter.LinterPlugin) : list Linter.Issue :=
  if Config.IsLinterEnabled c entry.1
  then (λ issue, Linter.setLinter issue entry.1) <$> (Linter.LintWorkflow entry.2 wf).1
  else [].

(** The plugin is enabled and fails on the workflow with error [e]. *)
Definition pluginFails (c : Config.Config) (wf : Workflow.Workflow)
    (entry : gostring * Linter.LinterPlugin) (e : gostring) : Prop :=
  Config.IsLinterEnabled c entry.1 = true ∧ (Linter.LintWorkflow entry.2 wf).2 = Some e.

(** The error of [Lint] for that failure. *)
Definition failure (wf : Workflow.Workflow) (name e : gostring) : gostring :=
  lit "linter " ++ name ++ lit " failed on " ++ Workflow.File wf ++ lit ": " ++ e.

(** *** Sample data for the instances of the properties *)

(** A remote repository with two pages of tags and no references. *)
Definition sampleAPI : GitHubAPI :=
  {| ListTags := λ _ _ _ page,
       if page =? 0 then
         inr ([ {| GetName := lit "v1.0.0"; GetSHA := lit "1111111" |};
                {| GetName := lit "v2.1.0"; GetSHA := lit "2222222" |} ], 2)
       else
         inr ([ {| GetName := lit "v1.4.2"; GetSHA := lit "3333333" |} ], 0);
     GetRef := λ _ _ _ _, inl (lit "404 Not Found") |}.

Definition sampleHash : gostring := lit "b4ffde65f46336ab88eb53be808477a3936bae11".

(** Two issues of the style linter (minimal name length 30) that differ in
    their file, line and message and have the same [Key]: [issueA] is for
    the job named [a.yml:7:style:Job name 'x] at line 3 of [ci.yml],
    [issueB] for the job named [x] at line 7 of a file whose name holds
    colons. *)
Definition issueA : Linter.Issue :=
  {| Linter.File := lit "ci.yml"; Linter.Line := 3; Linter.Linter := lit "style";
     Linter.Message :=
       lit "Job name 'a.yml:7:style:Job name 'x' is too short (min 30 chars)" |}.

Definition issueB : Linter.Issue :=
  {| Linter.File := lit "ci.yml:3:style:Job name 'a.yml"; Linter.Line := 7;
     Linter.Linter := lit "style";
     Linter.Message := lit "Job name 'x' is too short (min 30 chars)" |}.

Definition sampleWorkflow : Workflow.Workflow :=
  {| Workflow.File := lit ".github/workflows/ci.yml";
     Workflow.Content_ := Some {| Workflow.Name := lit "ci" |};
     Workflow.RawBytes :=
       lit "jobs:" ++ [LF] ++ lit "  build:" ++ [LF]
       ++ lit "    steps:" ++ [LF]
       ++ lit "      - uses: actions/checkout@v3  # pinned" ++ [LF];
     Workflow.node := true |}.

(** A disk on which every write succeeds. *)
Definition sampleDisk : Workflow.FileSystem (gmap gostring gostring) :=
  {| Workflow.WriteFile := λ d file bytes, (<[file := bytes]> d, None) |}.

Definition strictStyle : Linter.StyleLinter :=
  {| Linter.styleSettings :=
       {| Config.MinNameLength := 30; Config.MaxNameLength := 50;
          Config.NamingConvention := []; Config.CheckoutFirst := true;
          Config.RequireStepNames := false; Config.MaxRunLines := 0 |} |}.

Definition sampleStyle : Linter.StyleLinter :=
  {| Linter.styleSettings :=
       {| Config.MinNameLength := 3; Config.MaxNameLength := 50;
          Config.NamingConvention := lit "title"; Config.CheckoutFirst := true;
          Config.RequireStepNames := false; Config.MaxRunLines := 0 |} |}.

(** Two plugins: one reports one issue for every workflow, the other
    fails on every workflow. *)
Definition samplePlugins : gmap gostring Linter.LinterPlugin :=
  {[ lit "permissions" :=
       {| Linter.LintWorkflow := λ wf,
            ([ {| Linter.File := lit "ci.yml"; Linter.Line := 0; Linter.Linter := [];
                  Linter.Message := lit "Workflow is missing permissions configuration" |} ],
             None) |};
     lit "versions" :=
       {| Linter.LintWorkflow := λ wf, ([], Some (lit "failed to parse YAML node")) |} ]}.

Definition sampleSurroundings : Linter.Surroundings :=
  {| Linter.LoadConfig := λ _, inr {| Config.Linters := None |};
     Linter.createLinters := λ _, samplePlugins;
     Linter.rangeLinters := λ _ m, map_to_list m |}.

Definition sampleLinter : Linter.WorkflowLinter :=
  {| Linter.workflows := [sampleWorkflow]; Linter.configFile := [];
     Linter.cfg := None; Linter.linters := ∅ |}.

Definition sampleReady : Linter.WorkflowLinter :=
  {| Linter.workflows := [sampleWorkflow]; Linter.configFile := [];
     Linter.cfg := Some {| Config.Linters := None |}; Linter.linters := samplePlugins |}.

Definition sampleKey : VersionKey :=
  NewConstrainedKey (lit "actions") (lit "checkout") (lit "v1.0.0") (lit "^1.0.0").

Definition sampleOps : list op :=
  [ OpSetUnconstrained (NewUnconstrainedKey (lit "actions") (lit "checkout"))
      (NewVersionResult (lit "v4.2.0") (lit "4444444") None);
    OpSetConstrained (NewUnconstrainedKey (lit "actions") (lit "checkout"))
      (NewVersionResult (lit "v4.2.0") (lit "4444444") None);
    OpGetConstrained sampleKey;
    OpSetConstrained sampleKey (NewVersionResult (lit "v1.4.2") (lit "3333333") None);
    OpGetUnconstrained (NewUnconstrainedKey (lit "actions") (lit "checkout")) ].

(** The first lookup of [sampleKey] on a new client, with the versions
    of [SpecVersion] and the remote of [sampleAPI]. *)
Definition sampleFirst : Client * (gostring * gostring * option error) :=
  Eval vm_compute in
    default (NewClient, ([], [], None))
      (@GetLatestVersion SpecVersion.impl sampleAPI 2 NewClient
         (lit "actions") (lit "checkout") (lit "v1.0.0") (lit "^1.0.0")).

End Props.

(** * Properties *)

Import Props.

(** ** The cache keys *)

Section keys.
Import Actions.

Lemma String_unconstrained owner repo :
  String (NewUnconstrainedKey owner repo) = owner ++ lit "/" ++ repo.
Proof. reflexivity. Qed.

Lemma String_constrained k :
  IsConstrained k = true →
  String k = Owner k ++ lit "/" ++ Repo k ++ lit ":" ++ Ref k ++ lit ":" ++ Pattern k.
Proof. intros Hk. unfold String. now rewrite Hk. Qed.

Lemma String_not_constrained k :
  IsConstrained k = false → String k = Owner k ++ lit "/" ++ Repo k.
Proof. intros Hk. unfold String. now rewrite Hk. Qed.

Lemma IsConstrained_pattern owner repo ref pattern :
  pattern ≠ [] → IsConstrained (NewConstrainedKey owner repo ref pattern) = true.
Proof.
  intros Hp. unfold IsConstrained. simpl.
  rewrite (bool_decide_eq_false_2 (pattern = [])) by assumption.
  apply orb_true_r.
Qed.

Lemma app_longer {A} (l t : list A) : l = l ++ t → t = [].
Proof.
  intros E. apply (f_equal length) in E. rewrite length_app in E.
  destruct t; [reflexivity | simpl in E; lia].
Qed.

(** For one repository the string of a constrained key is never the
    string of the unconstrained key. *)
Lemma String_constrained_ne_unconstrained k :
  IsConstrained k = true → String k ≠ String (NewUnconstrainedKey (Owner k) (Repo k)).
Proof.
  intros Hk E. rewrite String_constrained, String_unconstrained in E by assumption.
  apply app_inv_head, app_inv_head in E. symmetry in E.
  apply app_longer in E. discriminate E.
Qed.

Lemma IsConstrained_same k k' :
  Ref k = Ref k' → Pattern k = Pattern k' → IsConstrained k = IsConstrained k'.
Proof. intros E1 E2. unfold IsConstrained. now rewrite E1, E2. Qed.

Lemma IsConstrained_false k : IsConstrained k = false → Ref k = [] ∧ Pattern k = [].
Proof.
  unfold IsConstrained. intros E. apply orb_false_elim in E as [E1 E2].
  apply negb_false_iff in E1, E2.
  now apply bool_decide_eq_true_1 in E1, E2.
Qed.

Lemma String_changedOne k k' : changedOne k k' → String k ≠ String k'.
Proof.
  intros Hc E.
  destruct Hc as [(Hne & Er & Ef & Ep) | [(Eo & Hne & Ef & Ep) | [(Eo & Er & Hne & Ep) | (Eo & Er & Ef & Hne)]]].
  - pose proof (IsConstrained_same k k' Ef Ep) as Hs.
    unfold String in E. rewrite <- Hs, Er, Ef, Ep in E.
    destruct (IsConstrained k); cbn [negb] in E; apply app_inv_tail in E; contradiction.
  - pose proof (IsConstrained_same k k' Ef Ep) as Hs.
    unfold String in E. rewrite <- Hs, Eo, Ef, Ep in E.
    destruct (IsConstrained k); cbn [negb] in E; apply app_inv_head, app_inv_head in E.
    + apply app_inv_tail in E. contradiction.
    + contradiction.
  - destruct (IsConstrained k) eqn:Hk, (IsConstrained k') eqn:Hk'.
    + rewrite !String_constrained in E by assumption.
      rewrite Eo, Er, Ep in E. do 4 apply app_inv_head in E.
      apply app_inv_tail in E. contradiction.
    + apply (String_constrained_ne_unconstrained k Hk).
      rewrite E, String_not_constrained, String_unconstrained by assumption.
      now rewrite Eo, Er.
    + apply (String_constrained_ne_unconstrained k' Hk').
      rewrite <- E, String_not_constrained, String_unconstrained by assumption.
      now rewrite Eo, Er.
    + apply IsConstrained_false in Hk as [E1 _], Hk' as [E2 _]. congruence.
  - destruct (IsConstrained k) eqn:Hk, (IsConstrained k') eqn:Hk'.
    + rewrite !String_constrained in E by assumption.
      rewrite Eo, Er, Ef in E. do 6 apply app_inv_head in E. contradiction.
    + apply (String_constrained_ne_unconstrained k Hk).
      rewrite E, String_not_constrained, String_unconstrained by assumption.
      now rewrite Eo, Er.
    + apply (String_constrained_ne_unconstrained k' Hk').
      rewrite <- E, String_not_constrained, String_unconstrained by assumption.
      now rewrite Eo, Er.
    + apply IsConstrained_false in Hk as [_ E1], Hk' as [_ E2]. congruence.
Qed.

End keys.

(** ** The cache *)

Section cache.
Import Actions.

Lemma Set_counters c key result :
  hits (SetConstrained c key result) = hits c
  ∧ misses (SetConstrained c key result) = incr64 (misses c)
  ∧ hits (SetUnconstrained c key result) = hits c
  ∧ misses (SetUnconstrained c key result) = incr64 (misses c).
Proof. repeat split. Qed.

Lemma GetConstrained_found c key c' result :
  GetConstrained c key = (c', (result, true)) →
  constrained c !! String key = Some result
  ∧ hits c' = incr64 (hits c) ∧ misses c' = misses c
  ∧ constrained c' = constrained c ∧ unconstrained c' = unconstrained c.
Proof.
  unfold GetConstrained. destruct (constrained c !! String key) as [v|]; intros E.
  - injection E as <- <-. repeat split.
  - discriminate E.
Qed.

Lemma GetConstrained_not_found c key c' result :
  GetConstrained c key = (c', (result, false)) →
  constrained c !! String key = None ∧ c' = c ∧ result = zeroResult.
Proof.
  unfold GetConstrained. destruct (constrained c !! String key) as [v|]; intros E.
  - discriminate E.
  - injection E as <- <-. repeat split.
Qed.

Lemma GetUnconstrained_found c key c' result :
  GetUnconstrained c key = (c', (result, true)) →
  unconstrained c !! String key = Some result
  ∧ hits c' = incr64 (hits c) ∧ misses c' = misses c
  ∧ constrained c' = constrained c ∧ unconstrained c' = unconstrained c.
Proof.
  unfold GetUnconstrained. destruct (unconstrained c !! String key) as [v|]; intros E.
  - injection E as <- <-. repeat split.
  - discriminate E.
Qed.

Lemma GetUnconstrained_not_found c key c' result :
  GetUnconstrained c key = (c', (result, false)) →
  unconstrained c !! String key = None ∧ c' = c ∧ result = zeroResult.
Proof.
  unfold GetUnconstrained. destruct (unconstrained c !! String key) as [v|]; intros E.
  - discriminate E.
  - injection E as <- <-. repeat split.
Qed.

Lemma incr64_succ n : - 2 ^ 63 ≤ n < 2 ^ 63 - 1 → incr64 n = n + 1.
Proof.
  intros Hn. unfold incr64.
  rewrite Z.mod_small by lia. lia.
Qed.

(** What a query answers only depends on the entry of its map at the
    string of its key. *)
Lemma GetConstrained_answer c c' key :
  constrained c !! String key = constrained c' !! String key →
  (GetConstrained c key).2 = (GetConstrained c' key).2.
Proof.
  intros E. unfold GetConstrained. rewrite E.
  now destruct (constrained c' !! String key).
Qed.

Lemma GetUnconstrained_answer c c' key :
  unconstrained c !! String key = unconstrained c' !! String key →
  (GetUnconstrained c key).2 = (GetUnconstrained c' key).2.
Proof.
  intros E. unfold GetUnconstrained. rewrite E.
  now destruct (unconstrained c' !! String key).
Qed.

Lemma step_constrained_same c c' o s :
  constrained c !! s = constrained c' !! s →
  constrained (step c o).1 !! s = constrained (step c' o).1 !! s.
Proof.
  intros E. destruct o as [key result | key result | key | key |]; simpl; try assumption.
  - destruct (decide (String key = s)) as [<- | Hne].
    + now rewrite !lookup_insert_eq.
    + now rewrite !lookup_insert_ne.
  - unfold GetConstrained.
    now destruct (constrained c !! String key), (constrained c' !! String key).
  - unfold GetUnconstrained.
    now destruct (unconstrained c !! String key), (unconstrained c' !! String key).
  - reflexivity.
Qed.

Lemma step_unconstrained_same c c' o s :
  unconstrained c !! s = unconstrained c' !! s →
  unconstrained (step c o).1 !! s = unconstrained (step c' o).1 !! s.
Proof.
  intros E. destruct o as [key result | key result | key | key |]; simpl; try assumption.
  - destruct (decide (String key = s)) as [<- | Hne].
    + now rewrite !lookup_insert_eq.
    + now rewrite !lookup_insert_ne.
  - unfold GetConstrained.
    now destruct (constrained c !! String key), (constrained c' !! String key).
  - unfold GetUnconstrained.
    now destruct (unconstrained c !! String key), (unconstrained c' !! String key).
  - reflexivity.
Qed.

(** A store under another string leaves the entry at [s] as it is. *)
Lemma step_store_elsewhere c o p s :
  (∀ k, p k = true → String k ≠ s) →
  storesUnder p o = true →
  constrained (step c o).1 !! s = constrained c !! s
  ∧ unconstrained (step c o).1 !! s = unconstrained c !! s.
Proof.
  intros Hp Ho. destruct o as [key result | key result | key | key |]; simpl in Ho;
    try discriminate Ho; simpl; split; try reflexivity;
    apply lookup_insert_ne; now apply Hp.
Qed.

Lemma withoutStores_cons p o ops :
  withoutStores p (o :: ops) =
  if storesUnder p o then withoutStores p ops else o :: withoutStores p ops.
Proof.
  unfold withoutStores. destruct (storesUnder p o) eqn:E.
  - apply filter_cons_False. now rewrite E.
  - apply filter_cons_True. exact E.
Qed.

Lemma run_withoutStores p s ops : ∀ c c',
  (∀ k, p k = true → String k ≠ s) →
  constrained c !! s = constrained c' !! s →
  unconstrained c !! s = unconstrained c' !! s →
  constrained (run ops c) !! s = constrained (run (withoutStores p ops) c') !! s
  ∧ unconstrained (run ops c) !! s = unconstrained (run (withoutStores p ops) c') !! s.
Proof.
  induction ops as [| o ops IH]; intros c c' Hp Ec Eu.
  - now split.
  - rewrite withoutStores_cons. simpl.
    destruct (storesUnder p o) eqn:Ho.
    + destruct (step_store_elsewhere c o p s Hp Ho) as [E1 E2].
      apply IH; [assumption | now rewrite E1 | now rewrite E2].
    + simpl. apply IH; [assumption | |].
      * now apply step_constrained_same.
      * now apply step_unconstrained_same.
Qed.

Lemma isConstrainedKeyOf_spec owner repo k :
  isConstrainedKeyOf owner repo k = true →
  String k ≠ String (NewUnconstrainedKey owner repo).
Proof.
  unfold isConstrainedKeyOf. intros E.
  apply andb_prop in E as [E Hk]. apply andb_prop in E as [Eo Er].
  apply bool_decide_eq_true_1 in Eo, Er. subst owner repo.
  now apply String_constrained_ne_unconstrained.
Qed.

Lemma isUnconstrainedKeyOf_spec owner repo ref pattern k :
  pattern ≠ [] →
  isUnconstrainedKeyOf owner repo k = true →
  String k ≠ String (NewConstrainedKey owner repo ref pattern).
Proof.
  unfold isUnconstrainedKeyOf. intros Hp E.
  apply bool_decide_eq_true_1 in E. subst k. intros E. symmetry in E. revert E.
  apply (String_constrained_ne_unconstrained (NewConstrainedKey owner repo ref pattern)).
  now apply IsConstrained_pattern.
Qed.

Lemma gets_after_Clear gets : ∀ c,
  constrained c = ∅ → unconstrained c = ∅ →
  forallb isGet gets = true →
  run gets c = c ∧ Forall (λ r, r = Some (zeroResult, false)) (returned gets c).
Proof.
  induction gets as [| o gets IH]; intros c Ec Eu Hg.
  - split; [reflexivity | constructor].
  - simpl in Hg. apply andb_prop in Hg as [Ho Hg].
    assert ((step c o) = (c, Some (zeroResult, false))) as Es.
    { destruct o as [key result | key result | key | key |]; try discriminate Ho; simpl.
      - unfold GetConstrained. now rewrite Ec, lookup_empty.
      - unfold GetUnconstrained. now rewrite Eu, lookup_empty. }
    simpl. rewrite Es. simpl. destruct (IH c Ec Eu Hg) as [E1 E2].
    split; [assumption | now constructor].
Qed.

End cache.

(** ** The resolving client *)

Section resolver.
Import Actions.
Context `{Version} `{GitHubAPI}.

Lemma paginateFrom_sends {A} fuel : ∀ (c : Client) owner repo page
    (fn : A → RepositoryTag → A * bool) acc c' acc' e,
  paginateFrom fuel c owner repo page fn acc = Some (c', acc', e) →
  (requests c < requests c')%nat ∧ cache c' = cache c ∧ github c' = github c.
Proof.
  induction fuel as [| fuel IH]; intros c owner repo page fn acc c' acc' e E.
  - discriminate E.
  - simpl in E.
    destruct (ListTags (requests c) owner repo page) as [err | [tags NextPage]].
    + injection E as <- <- <-. simpl. repeat split. lia.
    + destruct (eachTag fn tags acc) as [acc1 continue].
      destruct continue; simpl in E.
      * destruct (NextPage =? 0).
        -- injection E as <- <- <-. simpl. repeat split. lia.
        -- apply IH in E as (E1 & E2 & E3). simpl in *. repeat split; [lia | assumption..].
      * injection E as <- <- <-. simpl. repeat split. lia.
Qed.

Lemma paginateTags_sends {A} fuel (c : Client) owner repo
    (fn : A → RepositoryTag → A * bool) acc c' acc' e :
  paginateTags fuel c owner repo fn acc = Some (c', acc', e) →
  (requests c < requests c')%nat ∧ cache c' = cache c ∧ github c' = true.
Proof.
  unfold paginateTags. intros E. apply paginateFrom_sends in E as (E1 & E2 & E3).
  simpl in *. auto.
Qed.

(** Fuel that is enough stays enough. *)
Lemma paginateFrom_more {A} fuel : ∀ (c : Client) owner repo page
    (fn : A → RepositoryTag → A * bool) acc x fuel',
  paginateFrom fuel c owner repo page fn acc = Some x → (fuel ≤ fuel')%nat →
  paginateFrom fuel' c owner repo page fn acc = Some x.
Proof.
  induction fuel as [| fuel IH]; intros c owner repo page fn acc x fuel' E Hf.
  - discriminate E.
  - destruct fuel' as [| fuel']; [lia |]. simpl in E |- *.
    destruct (ListTags (requests c) owner repo page) as [err | [tags NextPage]];
      [exact E |].
    destruct (eachTag fn tags acc) as [acc1 continue].
    destruct (negb continue); [exact E |].
    destruct (NextPage =? 0); [exact E |].
    apply IH; [exact E | lia].
Qed.

Lemma GetLatestVersion_more fuel fuel' c owner repo currentVersion versionPattern x :
  GetLatestVersion fuel c owner repo currentVersion versionPattern = Some x →
  (fuel ≤ fuel')%nat →
  GetLatestVersion fuel' c owner repo currentVersion versionPattern = Some x.
Proof.
  unfold GetLatestVersion.
  destruct (GetConstrained _ _) as [ch [result ok]].
  destruct ok; [now intros E _ |].
  unfold fetchMatchingTags, paginateTags.
  match goal with |- context [paginateFrom fuel ?c ?o ?r ?pg ?fn ?acc] =>
    destruct (paginateFrom fuel c o r pg fn acc) as [y |] eqn:Ep end; [| discriminate].
  intros E Hf. now rewrite (paginateFrom_more _ _ _ _ _ _ _ _ _ Ep Hf).
Qed.

Lemma GetLatestVersion_hit fuel c owner repo currentVersion versionPattern v :
  constrained (cache c) !! String (NewConstrainedKey owner repo currentVersion versionPattern)
    = Some v →
  GetLatestVersion fuel c owner repo currentVersion versionPattern =
  Some (withCache c {| constrained := constrained (cache c);
                       unconstrained := unconstrained (cache c);
                       hits := incr64 (hits (cache c)); misses := misses (cache c) |},
        (Tag v, Hash v, Err v)).
Proof.
  intros E. unfold GetLatestVersion, GetConstrained. now rewrite E.
Qed.

Lemma GetLatestVersion_miss fuel c owner repo currentVersion versionPattern c1 r :
  constrained (cache c) !! String (NewConstrainedKey owner repo currentVersion versionPattern)
    = None →
  GetLatestVersion fuel c owner repo currentVersion versionPattern = Some (c1, r) →
  (requests c < requests c1)%nat
  ∧ cache c1 = SetConstrained (cache c)
                 (NewConstrainedKey owner repo currentVersion versionPattern)
                 (NewVersionResult r.1.1 r.1.2 r.2).
Proof.
  intros E. unfold GetLatestVersion, GetConstrained. rewrite E.
  cbn beta iota. unfold fetchMatchingTags.
  match goal with |- context [paginateTags ?f ?c ?o ?r ?fn ?acc] =>
    destruct (paginateTags f c o r fn acc) as [[[c2 tags] err] |] eqn:Ep end;
    [| discriminate].
  apply paginateTags_sends in Ep as (E1 & E2 & _). simpl in E1, E2.
  destruct tags as [| t0 tags], err as [err |];
    intros Er; injection Er as <- <-; simpl; rewrite E2; split; try lia; reflexivity.
Qed.

Lemma lookups_hits fuels : ∀ c owner repo currentVersion versionPattern v,
  constrained (cache c) !! String (NewConstrainedKey owner repo currentVersion versionPattern)
    = Some v →
  ∃ cN,
    lookups fuels c owner repo currentVersion versionPattern
      = Some (cN, replicate (length fuels) (Tag v, Hash v, Err v))
    ∧ requests cN = requests c
    ∧ constrained (cache cN) = constrained (cache c)
    ∧ unconstrained (cache cN) = unconstrained (cache c)
    ∧ misses (cache cN) = misses (cache c)
    ∧ hits (cache cN) = Nat.iter (length fuels) incr64 (hits (cache c)).
Proof.
  induction fuels as [| fuel fuels IH]; intros c owner repo currentVersion versionPattern v E.
  - exists c. repeat split.
  - simpl. rewrite (GetLatestVersion_hit _ _ _ _ _ _ v E).
    match goal with |- context [lookups fuels ?c1 _ _ _ _] =>
      destruct (IH c1 owner repo currentVersion versionPattern v E)
        as (cN & E1 & E2 & E3 & E4 & E5 & E6) end.
    exists cN. rewrite E1. simpl in *. repeat split; try assumption.
    rewrite E6. clear. induction (length fuels) as [| n IHn]; simpl; [reflexivity | now rewrite IHn].
Qed.

End resolver.

(** ** Runes of ASCII strings and commit hashes *)

Section runes.
Import Actions.

Lemma DecodeRuneInString_ascii c s :
  code c < 128 → DecodeRuneInString (c :: s) = (code c, 1%nat).
Proof.
  intros Hc. unfold DecodeRuneInString.
  apply Z.ltb_lt in Hc. now rewrite Hc.
Qed.

Lemma rangeFrom_ascii s : ∀ fuel i,
  Forall (λ c, code c < 128) s → (length s ≤ fuel)%nat →
  (rangeFrom fuel i s).*2 = code <$> s.
Proof.
  induction s as [| c s IH]; intros fuel i Hs Hf.
  - now destruct fuel.
  - destruct fuel as [| fuel]; [simpl in Hf; lia |].
    apply Forall_cons in Hs as [Hc Hs].
    cbn [rangeFrom]. rewrite DecodeRuneInString_ascii by assumption.
    cbn [drop fmap list_fmap snd]. simpl in Hf.
    f_equal. apply IH; [assumption | lia].
Qed.

Lemma runes_ascii s : Forall (λ c, code c < 128) s → runes s = code <$> s.
Proof. intros Hs. unfold runes, rangeString. now apply rangeFrom_ascii. Qed.

Lemma hexDigits_code c :
  c ∈ hexDigits →
  code c < 128
  ∧ negb (negb ((48 <=? code c) && (code c <=? 57))
          && negb ((97 <=? code c) && (code c <=? 102))
          && negb ((65 <=? code c) && (code c <=? 70))) = true.
Proof.
  unfold hexDigits, lit. cbn [String.list_ascii_of_string]. intros Hin.
  repeat (apply elem_of_cons in Hin as [-> | Hin]; [now vm_compute |]).
  now apply elem_of_nil in Hin.
Qed.

Lemma IsCommitHash_hexString40 ref : hexString40 ref → IsCommitHash ref = true.
Proof.
  intros [Hl Hh]. unfold IsCommitHash, len. rewrite Hl. cbn [Z.of_nat Z.eqb Pos.eqb negb].
  rewrite runes_ascii.
  - apply forallb_forall. intros z Hz. apply in_map_iff in Hz as (c & <- & Hc).
    rewrite Forall_forall in Hh. apply list_elem_of_In in Hc.
    now apply hexDigits_code, Hh.
  - eapply Forall_impl; [exact Hh |]. intros c Hc. now apply hexDigits_code.
Qed.

End runes.

(** ** The properties of the cache and of the resolver *)

Section cache_claims.
Import Actions.

(** C10.  [Clear] puts the cache back in its initial state: the cache is
    [NewCache] again, [Stats] gives zero hits and zero misses, and in any
    sequence of [GetConstrained] and [GetUnconstrained] calls that follows,
    with no [Set] in it, every call answers not-found and leaves the cache
    as it is. *)
Theorem Clear_restores_initial_state (c : Cache) (gets : list op) :
  forallb isGet gets = true →
  Clear c = NewCache
  ∧ Stats (Clear c) = {| Hits := 0; Misses := 0 |}
  ∧ Forall (λ r, r = Some (zeroResult, false)) (returned gets (Clear c))
  ∧ run gets (Clear c) = NewCache.
Proof.
  intros Hg.
  destruct (gets_after_Clear gets (Clear c) eq_refl eq_refl Hg) as [E1 E2].
  repeat split; assumption.
Qed.

(** C2.  Constrained and unconstrained results of one repository never
    stand in for each other.  Whatever the sequence of calls on a new
    cache, the answer of a constrained query for [(owner, repo)] with a
    pattern that is not empty is the answer it gets when every store under
    the unconstrained key of [(owner, repo)] is left out of the sequence;
    and the answer of the unconstrained query for [(owner, repo)] is the
    answer it gets when every store under a constrained key of
    [(owner, repo)] is left out. *)
Theorem constrained_unconstrained_separate (ops : list op)
    (owner repo ref pattern : gostring) :
  pattern ≠ [] →
  (GetConstrained (run ops NewCache) (NewConstrainedKey owner repo ref pattern)).2
  = (GetConstrained (run (withoutStores (isUnconstrainedKeyOf owner repo) ops) NewCache)
       (NewConstrainedKey owner repo ref pattern)).2
  ∧ (GetUnconstrained (run ops NewCache) (NewUnconstrainedKey owner repo)).2
    = (GetUnconstrained (run (withoutStores (isConstrainedKeyOf owner repo) ops) NewCache)
         (NewUnconstrainedKey owner repo)).2.
Proof.
  intros Hp. split.
  - apply GetConstrained_answer.
    apply run_withoutStores; [| reflexivity..].
    intros k Hk. now apply isUnconstrainedKeyOf_spec.
  - apply GetUnconstrained_answer.
    apply run_withoutStores; [| reflexivity..].
    intros k Hk. now apply isConstrainedKeyOf_spec.
Qed.

Lemma Clear_restores_initial_state_witness :
  forallb isGet [OpGetConstrained sampleKey; OpGetUnconstrained sampleKey] = true
  ∧ Clear (run sampleOps NewCache) = NewCache
  ∧ Stats (Clear (run sampleOps NewCache)) = {| Hits := 0; Misses := 0 |}
  ∧ Forall (λ r, r = Some (zeroResult, false))
      (returned [OpGetConstrained sampleKey; OpGetUnconstrained sampleKey]
         (Clear (run sampleOps NewCache)))
  ∧ run [OpGetConstrained sampleKey; OpGetUnconstrained sampleKey]
      (Clear (run sampleOps NewCache)) = NewCache.
Proof.
  split; [reflexivity |].
  apply (Clear_restores_initial_state (run sampleOps NewCache)
           [OpGetConstrained sampleKey; OpGetUnconstrained sampleKey]).
  reflexivity.
Defined.

Lemma constrained_unconstrained_separate_witness :
  lit "^1.0.0" ≠ []
  ∧ (GetConstrained (run sampleOps NewCache) sampleKey).2
    = (GetConstrained
         (run (withoutStores (isUnconstrainedKeyOf (lit "actions") (lit "checkout")) sampleOps)
            NewCache) sampleKey).2.
Proof.
  assert (lit "^1.0.0" ≠ []) as Hp by (vm_compute; discriminate).
  split; [exact Hp |].
  exact (proj1 (constrained_unconstrained_separate sampleOps
                  (lit "actions") (lit "checkout") (lit "v1.0.0") (lit "^1.0.0") Hp)).
Defined.

End cache_claims.

Section resolver_claims.
Import Actions.

(** C1.  Take a client whose cache has no entry for the key
    [(owner, repo, currentVersion, versionPattern)] and a first call of
    [GetLatestVersion] that returns.  That call has sent requests to the
    remote API and has recorded its result, error included, with
    [SetConstrained] (a miss), and it returns the same with any larger
    fuel.  Every later call with the same four
    arguments returns, whatever its fuel, the same tag, hash and error,
    sends no request, and adds one hit.  A call whose key differs in
    exactly one component, and was not cached either, sends requests again
    and records another miss.  Every [Set] adds one to the misses, every
    [Get] that finds its key adds one to the hits; the counters are
    [int64], so adding one is [incr64], which is [+ 1] below the largest
    [int64]. *)
Theorem cache_correctness {V : Version} {G : GitHubAPI}
    (owner repo currentVersion versionPattern : gostring)
    (c c1 : Client) (fuel : nat) (r : gostring * gostring * option error) :
  constrained (cache c) !! String (NewConstrainedKey owner repo currentVersion versionPattern)
    = None →
  GetLatestVersion fuel c owner repo currentVersion versionPattern = Some (c1, r) →
  ((requests c < requests c1)%nat
   ∧ cache c1 = SetConstrained (cache c)
                  (NewConstrainedKey owner repo currentVersion versionPattern)
                  (NewVersionResult r.1.1 r.1.2 r.2))
  ∧ (∀ fuel', (fuel ≤ fuel')%nat →
       GetLatestVersion fuel' c owner repo currentVersion versionPattern = Some (c1, r))
  ∧ (∀ fuels, ∃ cN,
       lookups fuels c1 owner repo currentVersion versionPattern
         = Some (cN, replicate (length fuels) r)
       ∧ requests cN = requests c1
       ∧ constrained (cache cN) = constrained (cache c1)
       ∧ unconstrained (cache cN) = unconstrained (cache c1)
       ∧ misses (cache cN) = misses (cache c1)
       ∧ hits (cache cN) = Nat.iter (length fuels) incr64 (hits (cache c1)))
  ∧ (∀ owner' repo' currentVersion' versionPattern' fuels cN rs fuel' c' r',
       changedOne (NewConstrainedKey owner repo currentVersion versionPattern)
                  (NewConstrainedKey owner' repo' currentVersion' versionPattern') →
       constrained (cache c)
         !! String (NewConstrainedKey owner' repo' currentVersion' versionPattern') = None →
       lookups fuels c1 owner repo currentVersion versionPattern = Some (cN, rs) →
       GetLatestVersion fuel' cN owner' repo' currentVersion' versionPattern' = Some (c', r') →
       (requests cN < requests c')%nat
       ∧ cache c' = SetConstrained (cache cN)
                      (NewConstrainedKey owner' repo' currentVersion' versionPattern')
                      (NewVersionResult r'.1.1 r'.1.2 r'.2))
  ∧ (∀ ch key result,
       Stats (SetConstrained ch key result)
         = {| Hits := hits ch; Misses := incr64 (misses ch) |}
       ∧ Stats (SetUnconstrained ch key result)
         = {| Hits := hits ch; Misses := incr64 (misses ch) |})
  ∧ (∀ ch key ch' result,
       GetConstrained ch key = (ch', (result, true))
       ∨ GetUnconstrained ch key = (ch', (result, true)) →
       Stats ch' = {| Hits := incr64 (hits ch); Misses := misses ch |})
  ∧ (∀ n, - 2 ^ 63 ≤ n < 2 ^ 63 - 1 → incr64 n = n + 1).
Proof.
  intros Hc E.
  destruct (GetLatestVersion_miss _ _ _ _ _ _ _ _ Hc E) as [Hreq Hcache].
  destruct r as [[t h] e]. cbn [fst snd] in Hcache |- *.
  assert (constrained (cache c1)
            !! String (NewConstrainedKey owner repo currentVersion versionPattern)
          = Some (NewVersionResult t h e)) as Hin.
  { rewrite Hcache. simpl. apply lookup_insert_eq. }
  split; [now split |].
  split; [intros fuel' Hf; now apply (GetLatestVersion_more fuel) |].
  split.
  { intros fuels. exact (lookups_hits fuels c1 _ _ _ _ _ Hin). }
  split.
  { intros owner' repo' currentVersion' versionPattern' fuels cN rs fuel' c' r'
      Hch Hc' El. apply GetLatestVersion_miss.
    destruct (lookups_hits fuels c1 _ _ _ _ _ Hin) as (cN' & El' & _ & Em & _).
    rewrite El in El'. injection El' as -> _.
    rewrite Em, Hcache. simpl. rewrite lookup_insert_ne; [assumption |].
    now apply String_changedOne. }
  split.
  { intros ch key result. now split. }
  split.
  { intros ch key ch' result [Eg | Eg].
    - apply GetConstrained_found in Eg as (_ & E1 & E2 & _). unfold Stats. now rewrite E1, E2.
    - apply GetUnconstrained_found in Eg as (_ & E1 & E2 & _). unfold Stats. now rewrite E1, E2. }
  apply incr64_succ.
Qed.

(** C5.  A reference that is a string of 40 hexadecimal digits comes back
    from [GetCommitHash] as it is, with no error, whatever the fuel; the
    client is left as it was: no request is sent, the API client is not
    initialised, the cache is not touched. *)
Theorem commit_hash_short_circuit {V : Version} {G : GitHubAPI}
    (owner repo ref : gostring) (fuel : nat) (c : Client) :
  hexString40 ref →
  GetCommitHash fuel c owner repo ref = Some (c, (ref, None)).
Proof.
  intros Hh. unfold GetCommitHash. now rewrite (IsCommitHash_hexString40 ref Hh).
Qed.

Lemma cache_correctness_witness :
  constrained (cache NewClient) !! String sampleKey = None
  ∧ @GetLatestVersion SpecVersion.impl sampleAPI 2 NewClient
      (lit "actions") (lit "checkout") (lit "v1.0.0") (lit "^1.0.0") = Some sampleFirst
  ∧ (requests NewClient < requests sampleFirst.1)%nat
  ∧ sampleFirst.2 = (lit "v2.1.0", lit "2222222", None).
Proof.
  assert (constrained (cache NewClient) !! String sampleKey = None) as H1 by reflexivity.
  assert (@GetLatestVersion SpecVersion.impl sampleAPI 2 NewClient
            (lit "actions") (lit "checkout") (lit "v1.0.0") (lit "^1.0.0")
          = Some (sampleFirst.1, sampleFirst.2)) as H2 by (vm_compute; reflexivity).
  split; [exact H1 |]. split; [exact H2 |]. split; [| reflexivity].
  exact (proj1 (proj1 (@cache_correctness SpecVersion.impl sampleAPI
                         (lit "actions") (lit "checkout") (lit "v1.0.0") (lit "^1.0.0")
                         NewClient sampleFirst.1 2%nat sampleFirst.2 H1 H2))).
Defined.

Lemma commit_hash_short_circuit_witness :
  hexString40 sampleHash
  ∧ @GetCommitHash SpecVersion.impl sampleAPI 0 NewClient
      (lit "actions") (lit "checkout") sampleHash = Some (NewClient, (sampleHash, None)).
Proof.
  assert (hexString40 sampleHash) as Hh.
  { split; [reflexivity |]. apply (bool_decide_unpack _). vm_compute. exact I. }
  split; [exact Hh |].
  exact (@commit_hash_short_circuit SpecVersion.impl sampleAPI
           (lit "actions") (lit "checkout") sampleHash 0%nat NewClient Hh).
Defined.

End resolver_claims.

(** ** Version patterns *)

Section patterns.
Import Actions.

Lemma HasPrefix_app p s : HasPrefix (p ++ s) p = true.
Proof.
  induction p as [| c p IH]; [now destruct s |].
  simpl. now rewrite decide_True.
Qed.

Lemma CutPrefix_app p s : CutPrefix (p ++ s) p = (s, true).
Proof. unfold CutPrefix. now rewrite HasPrefix_app, drop_app_length. Qed.

Lemma CutPrefix_false s p : HasPrefix s p = false → CutPrefix s p = (s, false).
Proof. unfold CutPrefix. now intros ->. Qed.

Lemma matchesVersionPattern_caret {V : Version} tagVersion rest :
  matchesVersionPattern tagVersion (lit "^" ++ rest) =
  if ExtractMajor rest =? 1 then ExtractMajor tagVersion >=? 1
  else ExtractMajor tagVersion =? ExtractMajor rest.
Proof.
  unfold matchesVersionPattern.
  rewrite bool_decide_eq_false_2 by discriminate.
  now rewrite CutPrefix_app.
Qed.

Lemma matchesVersionPattern_tilde {V : Version} tagVersion rest :
  matchesVersionPattern tagVersion (lit "~" ++ rest) =
  (((ExtractMajorMinor tagVersion).1 =? (ExtractMajorMinor rest).1)
   && ((ExtractMajorMinor tagVersion).2 =? (ExtractMajorMinor rest).2)).
Proof.
  unfold matchesVersionPattern.
  rewrite bool_decide_eq_false_2 by discriminate.
  rewrite (CutPrefix_false (lit "~" ++ rest) (lit "^")) by reflexivity.
  rewrite CutPrefix_app.
  now destruct (ExtractMajorMinor rest), (ExtractMajorMinor tagVersion).
Qed.

(** C4.  The table of [matchesVersionPattern], for every implementation
    of the package [version]: the empty pattern matches every tag; a
    pattern [^rest] whose major version is 1 matches exactly the tags of
    major version at least 1; a pattern [^rest] of another major version
    matches exactly the tags of that major version; a pattern [~rest]
    matches exactly the tags with the major and the minor version of
    [rest]; any other pattern matches no tag.  The five cases of the spec
    come out as stated for every implementation that reads the versions
    in them as the dotted numbers they are, and so they do with the
    versions read as the spec describes them. *)
Theorem matchesVersionPattern_table :
  (∀ (V : Version) tagVersion, matchesVersionPattern tagVersion [] = true)
  ∧ (∀ (V : Version) tagVersion rest,
       ExtractMajor rest = 1 →
       (matchesVersionPattern tagVersion (lit "^" ++ rest) = true ↔ 1 ≤ ExtractMajor tagVersion))
  ∧ (∀ (V : Version) tagVersion rest,
       ExtractMajor rest ≠ 1 →
       (matchesVersionPattern tagVersion (lit "^" ++ rest) = true
        ↔ ExtractMajor tagVersion = ExtractMajor rest))
  ∧ (∀ (V : Version) tagVersion rest,
       matchesVersionPattern tagVersion (lit "~" ++ rest) = true
       ↔ ExtractMajorMinor tagVersion = ExtractMajorMinor rest)
  ∧ (∀ (V : Version) tagVersion pattern,
       pattern ≠ [] → HasPrefix pattern (lit "^") = false → HasPrefix pattern (lit "~") = false →
       matchesVersionPattern tagVersion pattern = false)
  ∧ (∀ (V : Version),
       ExtractMajor (lit "1.0.0") = 1 → ExtractMajor (lit "2.0.0") = 2 →
       ExtractMajor (lit "v2.0.0") = 2 → ExtractMajor (lit "v3.0.0") = 3 →
       ExtractMajorMinor (lit "2.5.0") = (2, 5) →
       ExtractMajorMinor (lit "v2.5.1") = (2, 5) → ExtractMajorMinor (lit "v2.6.0") = (2, 6) →
       matchesVersionPattern (lit "v2.0.0") (lit "^1.0.0") = true
       ∧ matchesVersionPattern (lit "v3.0.0") (lit "^2.0.0") = false
       ∧ matchesVersionPattern (lit "v2.5.1") (lit "~2.5.0") = true
       ∧ matchesVersionPattern (lit "v2.6.0") (lit "~2.5.0") = false
       ∧ matchesVersionPattern (lit "2.0.0") [] = true)
  ∧ @matchesVersionPattern SpecVersion.impl (lit "v2.0.0") (lit "^1.0.0") = true
  ∧ @matchesVersionPattern SpecVersion.impl (lit "v3.0.0") (lit "^2.0.0") = false
  ∧ @matchesVersionPattern SpecVersion.impl (lit "v2.5.1") (lit "~2.5.0") = true
  ∧ @matchesVersionPattern SpecVersion.impl (lit "v2.6.0") (lit "~2.5.0") = false
  ∧ @matchesVersionPattern SpecVersion.impl (lit "2.0.0") [] = true.
Proof.
  split; [reflexivity |].
  split.
  { intros V tagVersion rest E. rewrite matchesVersionPattern_caret, E. simpl.
    rewrite Z.geb_le. reflexivity. }
  split.
  { intros V tagVersion rest Hne. rewrite matchesVersionPattern_caret.
    apply Z.eqb_neq in Hne. rewrite Hne. apply Z.eqb_eq. }
  split.
  { intros V tagVersion rest. rewrite matchesVersionPattern_tilde.
    rewrite andb_true_iff, !Z.eqb_eq.
    destruct (ExtractMajorMinor tagVersion), (ExtractMajorMinor rest). simpl.
    split; [intros [-> ->]; reflexivity | intros E; injection E; auto]. }
  split.
  { intros V tagVersion pattern Hne H1 H2. unfold matchesVersionPattern.
    rewrite bool_decide_eq_false_2 by assumption.
    now rewrite !CutPrefix_false by assumption. }
  split.
  { intros V E1 E2 E3 E4 E5 E6 E7.
    change (lit "^1.0.0") with (lit "^" ++ lit "1.0.0").
    change (lit "^2.0.0") with (lit "^" ++ lit "2.0.0").
    change (lit "~2.5.0") with (lit "~" ++ lit "2.5.0").
    rewrite !matchesVersionPattern_caret, !matchesVersionPattern_tilde.
    rewrite E1, E2, E3, E4, E5, E6, E7. repeat split. }
  repeat split; vm_compute; reflexivity.
Qed.

Lemma matchesVersionPattern_table_witness :
  @ExtractMajor SpecVersion.impl (lit "1.0.0") = 1
  ∧ (@matchesVersionPattern SpecVersion.impl (lit "v3.5.0") (lit "^" ++ lit "1.0.0") = true
     ↔ 1 ≤ @ExtractMajor SpecVersion.impl (lit "v3.5.0"))
  ∧ @ExtractMajor SpecVersion.impl (lit "2.0.0") ≠ 1
  ∧ (@matchesVersionPattern SpecVersion.impl (lit "v1.9.0") (lit "^" ++ lit "2.0.0") = true
     ↔ @ExtractMajor SpecVersion.impl (lit "v1.9.0") = @ExtractMajor SpecVersion.impl (lit "2.0.0"))
  ∧ @matchesVersionPattern SpecVersion.impl (lit "2.0.0") (lit "invalid") = false
  ∧ @matchesVersionPattern SpecVersion.impl (lit "v2.6.0") (lit "~2.5.0") = false.
Proof.
  assert (@ExtractMajor SpecVersion.impl (lit "1.0.0") = 1) as H1 by reflexivity.
  assert (@ExtractMajor SpecVersion.impl (lit "2.0.0") ≠ 1) as H2 by (vm_compute; discriminate).
  assert (lit "invalid" ≠ []) as H3 by (vm_compute; discriminate).
  destruct matchesVersionPattern_table as (_ & T1 & T2 & _ & T4 & T5 & _).
  split; [exact H1 |].
  split; [exact (T1 SpecVersion.impl (lit "v3.5.0") (lit "1.0.0") H1) |].
  split; [exact H2 |].
  split; [exact (T2 SpecVersion.impl (lit "v1.9.0") (lit "2.0.0") H2) |].
  split; [exact (T4 SpecVersion.impl (lit "2.0.0") (lit "invalid") H3 eq_refl eq_refl) |].
  exact (proj1 (proj2 (proj2 (proj2
           (T5 SpecVersion.impl eq_refl eq_refl eq_refl eq_refl eq_refl eq_refl eq_refl))))).
Defined.

End patterns.

(** ** Issues of the style linter *)

Section issues.
Import Workflow Config Linter.

Lemma newIssue_None file line message : newIssue file line message = None ↔ message = [].
Proof.
  unfold newIssue. destruct (bool_decide_reflect (message = [])) as [E | E].
  - tauto.
  - split; [discriminate | contradiction].
Qed.

Lemma newIssue_Some file line message i :
  newIssue file line message = Some i →
  message ≠ [] ∧ Message i = message ∧ Linter.File i = file ∧ Line i = line.
Proof.
  unfold newIssue. destruct (bool_decide_reflect (message = [])) as [E | E].
  - discriminate.
  - intros [= <-]. auto.
Qed.

Lemma newIssue_message file line message i :
  newIssue file line message = Some i → Message i ≠ [].
Proof. intros E. apply newIssue_Some in E as (Hm & -> & _). exact Hm. Qed.

(** C9.  An issue that comes from [newIssue] has a message that is not
    empty: [newIssue] returns [nil] exactly for the empty message and
    otherwise an issue carrying the file, the line and the message it was
    given.  The checks of the name length and of the naming convention
    return what [newIssue] returns, so their issues have messages, and a
    name within the bounds yields [nil]; [checkWorkflowName] appends their
    results only when they are not [nil], so its list holds no [nil] and no
    issue without a message, and is empty for a name that passes both
    checks. *)
Theorem newIssue_nonempty_message :
  (∀ file line message, newIssue file line message = None ↔ message = [])
  ∧ (∀ file line message i,
       newIssue file line message = Some i →
       message ≠ [] ∧ Message i = message ∧ Linter.File i = file ∧ Line i = line)
  ∧ (∀ l name file line context i,
       checkNameLength l name file line context = Some i → Message i ≠ [])
  ∧ (∀ l name file line context,
       ¬ (0 < MinNameLength (styleSettings l) ∧ len name < MinNameLength (styleSettings l)) →
       ¬ (0 < MaxNameLength (styleSettings l) ∧ MaxNameLength (styleSettings l) < len name) →
       checkNameLength l name file line context = None)
  ∧ (∀ l name file line context i,
       checkNamingConvention l name file line context = Some i → Message i ≠ [])
  ∧ (∀ l wf file,
       Forall (λ p, ∃ i, p = Some i ∧ Message i ≠ []) (checkWorkflowName l wf file))
  ∧ (∀ l wf file content,
       Content_ wf = Some content → Name content ≠ [] →
       checkNameLength l (Name content) file 1 ctxWorkflow = None →
       checkNamingConvention l (Name content) file 1 ctxWorkflow = None →
       checkWorkflowName l wf file = []).
Proof.
  split; [exact newIssue_None |].
  split; [exact newIssue_Some |].
  split.
  { intros l name file line context i. unfold checkNameLength. apply newIssue_message. }
  split.
  { intros l name file line context Hmin Hmax. unfold checkNameLength.
    destruct (0 <? MinNameLength (styleSettings l)) eqn:E1,
             (len name <? MinNameLength (styleSettings l)) eqn:E2; simpl;
      try (exfalso; apply Hmin; split; [now apply Z.ltb_lt | now apply Z.ltb_lt]).
    all: destruct (0 <? MaxNameLength (styleSettings l)) eqn:E3,
                  (MaxNameLength (styleSettings l) <? len name) eqn:E4; simpl;
      try reflexivity;
      exfalso; apply Hmax; split; now apply Z.ltb_lt. }
  split.
  { intros l name file line context i. unfold checkNamingConvention.
    destruct (bool_decide (NamingConvention (styleSettings l) = [])); [discriminate |].
    destruct (length (Fields name) =? 0)%nat; [discriminate |].
    apply newIssue_message. }
  split.
  { intros l wf file. unfold checkWorkflowName.
    assert (Forall (λ p, ∃ i, p = Some i ∧ Message i ≠ [])
              ([] ++ [newIssue file 1 (lit "Workflow is missing a name")])) as Hmissing.
    { repeat constructor. eexists. split; [reflexivity | discriminate]. }
    destruct (Content_ wf) as [content |]; [| exact Hmissing].
    destruct (bool_decide (Name content = [])); [exact Hmissing |].
    destruct (checkNameLength l (Name content) file 1 ctxWorkflow) as [i1 |] eqn:E1,
             (checkNamingConvention l (Name content) file 1 ctxWorkflow) as [i2 |] eqn:E2;
      simpl; repeat constructor; eexists; (split; [reflexivity |]).
    - revert E1. unfold checkNameLength. apply newIssue_message.
    - revert E2. unfold checkNamingConvention.
      destruct (bool_decide (NamingConvention (styleSettings l) = [])); [discriminate |].
      destruct (length (Fields (Name content)) =? 0)%nat; [discriminate |].
      apply newIssue_message.
    - revert E1. unfold checkNameLength. apply newIssue_message.
    - revert E2. unfold checkNamingConvention.
      destruct (bool_decide (NamingConvention (styleSettings l) = [])); [discriminate |].
      destruct (length (Fields (Name content)) =? 0)%nat; [discriminate |].
      apply newIssue_message. }
  intros l wf file content Ec Hn E1 E2. unfold checkWorkflowName.
  rewrite Ec, bool_decide_eq_false_2 by assumption. now rewrite E1, E2.
Qed.

End issues.

(** ** The orchestrator *)

Section orchestrator_claims.
Import Workflow Config Linter.
Context {env : Surroundings}.

Lemma elem_of_concat {A} (x : A) (ls : list (list A)) :
  x ∈ concat ls ↔ ∃ l, x ∈ l ∧ l ∈ ls.
Proof.
  rewrite list_elem_of_In, in_concat. split; intros (l & H1 & H2); exists l.
  - now rewrite !list_elem_of_In.
  - now rewrite <- !list_elem_of_In.
Qed.

Lemma runLinters_ok c wf entries : ∀ acc,
  (∀ entry e, entry ∈ entries → ¬ pluginFails c wf entry e) →
  runLinters c wf entries acc = (acc ++ concat (pluginIssues c wf <$> entries), None).
Proof.
  induction entries as [| [name plugin] entries IH]; intros acc Hok.
  - simpl. now rewrite app_nil_r.
  - cbn [runLinters fmap list_fmap concat]. unfold pluginIssues at 1. cbn [fst snd].
    destruct (IsLinterEnabled c name) eqn:En; cbn [negb].
    + destruct (LintWorkflow plugin wf) as [issues [e |]] eqn:El.
      * exfalso. apply (Hok (name, plugin) e); [left |].
        split; [exact En | cbn [fst snd]; now rewrite El].
      * cbn [fst]. rewrite IH, app_assoc; [reflexivity |].
        intros entry e Hin. apply Hok. now right.
    + rewrite IH; [reflexivity |]. intros entry e Hin. apply Hok. now right.
Qed.

Lemma runLinters_cases c wf entries acc :
  (∀ entry e, entry ∈ entries → ¬ pluginFails c wf entry e)
  ∨ (∃ entry e, entry ∈ entries ∧ pluginFails c wf entry e
       ∧ runLinters c wf entries acc = ([], Some (failure wf entry.1 e))).
Proof.
  revert acc. induction entries as [| [name plugin] entries IH]; intros acc.
  - left. intros entry e Hin. now apply elem_of_nil in Hin.
  - cbn [runLinters].
    destruct (IsLinterEnabled c name) eqn:En; cbn [negb].
    + destruct (LintWorkflow plugin wf) as [issues [e |]] eqn:El.
      * right. exists (name, plugin), e. split; [left |]. split; [| reflexivity].
        split; [exact En | cbn [fst snd]; now rewrite El].
      * destruct (IH (acc ++ ((λ issue, setLinter issue name) <$> issues)))
          as [Hok | (entry & e & Hin & Hf & E)].
        -- left. intros entry e Hin [He Hf]. apply elem_of_cons in Hin as [-> | Hin].
           ++ cbn [fst snd] in Hf. rewrite El in Hf. discriminate Hf.
           ++ now apply (Hok entry e Hin).
        -- right. exists entry, e. split; [now right | now split].
    + destruct (IH acc) as [Hok | (entry & e & Hin & Hf & E)].
      * left. intros entry e Hin [He Hf]. apply elem_of_cons in Hin as [-> | Hin].
        -- cbn [fst] in He. congruence.
        -- now apply (Hok entry e Hin).
      * right. exists entry, e. split; [now right | now split].
Qed.

Hypothesis Hrange : ∀ n (m : gmap gostring LinterPlugin), rangeLinters n m ≡ₚ map_to_list m.

Lemma rangeLinters_lookup (n : nat) (ls : gmap gostring LinterPlugin)
    (entry : gostring * LinterPlugin) :
  entry ∈ rangeLinters n ls ↔ ls !! entry.1 = Some entry.2.
Proof. rewrite (Hrange n ls). destruct entry. apply elem_of_map_to_list. Qed.

Lemma pluginIssues_elem c wf name plugin issue :
  issue ∈ pluginIssues c wf (name, plugin) ↔
  IsLinterEnabled c name = true
  ∧ ∃ issue0, issue0 ∈ (LintWorkflow plugin wf).1 ∧ issue = setLinter issue0 name.
Proof.
  unfold pluginIssues. cbn [fst snd]. destruct (IsLinterEnabled c name).
  - rewrite list_elem_of_fmap. split.
    + intros (issue0 & -> & Hin). split; [reflexivity |]. now exists issue0.
    + intros (_ & issue0 & Hin & ->). now exists issue0.
  - split; [intros Hin; now apply elem_of_nil in Hin | intros [E _]; discriminate E].
Qed.

Lemma eachWorkflow_ok (c : Config) (ls : gmap gostring LinterPlugin) (wfs : list Workflow) :
  ∀ (n : nat) (acc : list Issue),
  (∀ wf name plugin e, wf ∈ wfs → ls !! name = Some plugin →
     ¬ pluginFails c wf (name, plugin) e) →
  ∃ issues,
    eachWorkflow c ls n wfs acc = (issues, None)
    ∧ ∀ issue, issue ∈ issues ↔
        issue ∈ acc
        ∨ ∃ wf name plugin, wf ∈ wfs ∧ ls !! name = Some plugin
            ∧ issue ∈ pluginIssues c wf (name, plugin).
Proof.
  induction wfs as [| wf wfs IH]; intros n acc Hok.
  - exists acc. split; [reflexivity |]. intros issue. split; [now left |].
    intros [Hin | (wf & name & plugin & Hin & _)]; [assumption | now apply elem_of_nil in Hin].
  - cbn [eachWorkflow]. rewrite runLinters_ok.
    + destruct (IH (S n) (acc ++ concat (pluginIssues c wf <$> rangeLinters n ls)))
        as (issues & E & Hiff).
      { intros wf' name plugin e Hin. apply Hok. now right. }
      exists issues. split; [exact E |]. intros issue. rewrite Hiff, elem_of_app.
      split.
      * intros [[Hin | Hin] | (wf' & name & plugin & Hin & Hl & Hi)].
        -- now left.
        -- right. apply elem_of_concat in Hin as (is_ & Hi & Hin).
           apply list_elem_of_fmap in Hin as ([name plugin] & -> & Hin).
           apply rangeLinters_lookup in Hin.
           exists wf, name, plugin. split; [left | now split].
        -- right. exists wf', name, plugin. split; [now right | now split].
      * intros [Hin | (wf' & name & plugin & Hin & Hl & Hi)]; [now left; left |].
        apply elem_of_cons in Hin as [-> | Hin].
        -- left; right. apply elem_of_concat. exists (pluginIssues c wf (name, plugin)).
           split; [exact Hi |]. apply list_elem_of_fmap. exists (name, plugin).
           split; [reflexivity |]. now apply rangeLinters_lookup.
        -- right. now exists wf', name, plugin.
    + intros [name plugin] e Hin. apply rangeLinters_lookup in Hin.
      apply Hok; [left | exact Hin].
Qed.

Lemma eachWorkflow_fail (c : Config) (ls : gmap gostring LinterPlugin) (wfs : list Workflow) :
  ∀ (n : nat) (acc : list Issue),
  (∃ wf name plugin e, wf ∈ wfs ∧ ls !! name = Some plugin
     ∧ pluginFails c wf (name, plugin) e) →
  ∃ wf name plugin e, wf ∈ wfs ∧ ls !! name = Some plugin
    ∧ pluginFails c wf (name, plugin) e
    ∧ eachWorkflow c ls n wfs acc = ([], Some (failure wf name e)).
Proof.
  induction wfs as [| wf wfs IH]; intros n acc (wf0 & name0 & plugin0 & e0 & Hin0 & Hl0 & Hf0).
  - now apply elem_of_nil in Hin0.
  - cbn [eachWorkflow].
    destruct (runLinters_cases c wf (rangeLinters n ls) acc)
      as [Hok | ([name plugin] & e & Hin & Hf & E)].
    + rewrite runLinters_ok by exact Hok.
      apply elem_of_cons in Hin0 as [-> | Hin0].
      * exfalso. apply (Hok (name0, plugin0) e0); [| exact Hf0].
        now apply rangeLinters_lookup.
      * destruct (IH (S n) (acc ++ concat (pluginIssues c wf <$> rangeLinters n ls)))
          as (wf1 & name1 & plugin1 & e1 & Hin1 & Hl1 & Hf1 & E1).
        { now exists wf0, name0, plugin0, e0. }
        exists wf1, name1, plugin1, e1. split; [now right | now split].
    + rewrite E. apply rangeLinters_lookup in Hin.
      exists wf, name, plugin, e. split; [left | now split].
Qed.

(** C8.  [Lint] fails fast.  Let the configuration be loaded (or
    loadable) and let every [range] over the map of plugins yield its
    entries, each once, in some order.  If some enabled plugin returns an
    error on some workflow, [Lint] returns no issue and an error that names
    a plugin that failed and the file of the workflow it failed on, followed
    by the error of the plugin; what the other plugins and files reported
    is not returned.  If no enabled plugin returns an error, [Lint] returns
    no error and exactly the issues of the enabled plugins on the
    workflows, each with its [Linter] field set to the name its plugin is
    registered under. *)
Theorem Lint_fail_fast (l l' : WorkflowLinter) (c : Config) :
  ensureConfig l = inr (l', c) →
  ((∃ wf name plugin e, wf ∈ workflows l' ∧ linters l' !! name = Some plugin
      ∧ pluginFails c wf (name, plugin) e) →
   ∃ wf name plugin e, wf ∈ workflows l' ∧ linters l' !! name = Some plugin
     ∧ pluginFails c wf (name, plugin) e
     ∧ Lint l = (l', ([], Some (failure wf name e))))
  ∧ ((∀ wf name plugin e, wf ∈ workflows l' → linters l' !! name = Some plugin →
        ¬ pluginFails c wf (name, plugin) e) →
     ∃ issues,
       Lint l = (l', (issues, None))
       ∧ ∀ issue, issue ∈ issues ↔
           ∃ wf name plugin issue0,
             wf ∈ workflows l' ∧ linters l' !! name = Some plugin
             ∧ IsLinterEnabled c name = true
             ∧ issue0 ∈ (LintWorkflow plugin wf).1
             ∧ issue = setLinter issue0 name).
Proof.
  intros Ec. unfold Lint. rewrite Ec. split.
  - intros Hf.
    destruct (eachWorkflow_fail c (linters l') (workflows l') 0 [] Hf)
      as (wf & name & plugin & e & Hin & Hl & Hfail & E).
    exists wf, name, plugin, e. now rewrite E.
  - intros Hok.
    destruct (eachWorkflow_ok c (linters l') (workflows l') 0 [] Hok) as (issues & E & Hiff).
    exists issues. rewrite E. split; [reflexivity |].
    intros issue. rewrite Hiff. split.
    + intros [Hin | (wf & name & plugin & Hin & Hl & Hi)]; [now apply elem_of_nil in Hin |].
      apply pluginIssues_elem in Hi as (En & issue0 & Hi & ->).
      now exists wf, name, plugin, issue0.
    + intros (wf & name & plugin & issue0 & Hin & Hl & En & Hi & ->).
      right. exists wf, name, plugin. split; [assumption |]. split; [assumption |].
      apply pluginIssues_elem. split; [assumption |]. now exists issue0.
Qed.

End orchestrator_claims.

(** ** Searching and replacing in strings *)

Section search.

Lemma HasPrefix_spec p : ∀ s, HasPrefix s p = true ↔ ∃ r, s = p ++ r.
Proof.
  induction p as [| c p IH]; intros s.
  - split; [intros _; now exists s | now destruct s].
  - destruct s as [| c' s]; simpl.
    + split; [discriminate | intros (r & E); discriminate E].
    + destruct (decide (c' = c)) as [-> | Hne].
      * rewrite IH. split; intros (r & E); exists r; [now rewrite E | now injection E].
      * split; [discriminate | intros (r & E); injection E; intros; contradiction].
Qed.

Lemma Index_cases sub : ∀ s,
  (Index s sub = -1 ∧ ¬ substring sub s)
  ∨ (∃ pre post, Index s sub = Z.of_nat (length pre) ∧ firstOccurrence sub s pre post).
Proof.
  induction s as [| c s IH].
  - cbn [Index]. destruct (HasPrefix [] sub) eqn:Hp.
    + right. apply HasPrefix_spec in Hp as (r & E). exists [], r.
      split; [reflexivity |]. split; [exact E | intros; simpl; lia].
    + left. split; [reflexivity |]. intros (pre & post & E).
      destruct pre; [| discriminate E]. simpl in E.
      assert (HasPrefix [] sub = true) as Ht by (apply HasPrefix_spec; now exists post).
      congruence.
  - cbn [Index]. destruct (HasPrefix (c :: s) sub) eqn:Hp.
    + right. apply HasPrefix_spec in Hp as (r & E). exists [], r.
      split; [reflexivity |]. split; [exact E | intros; simpl; lia].
    + assert (∀ pre post, c :: s = pre ++ sub ++ post →
                ∃ pre', pre = c :: pre' ∧ s = pre' ++ sub ++ post) as Hcons.
      { intros pre post E. destruct pre as [| c' pre].
        - simpl in E.
          assert (HasPrefix (c :: s) sub = true) as Ht by (apply HasPrefix_spec; now exists post).
          congruence.
        - injection E as <- E. now exists pre. }
      destruct IH as [[E Hno] | (pre & post & E & Hs & Hfirst)].
      * left. rewrite E. split; [reflexivity |]. intros (pre & post & Es).
        apply Hcons in Es as (pre' & _ & Es). apply Hno. now exists pre', post.
      * right. exists (c :: pre), post. rewrite E.
        destruct (Z.of_nat (length pre) <? 0) eqn:Hneg; [apply Z.ltb_lt in Hneg; lia |].
        split; [simpl length; lia |]. split; [now rewrite Hs |].
        intros pre1 post1 E1. apply Hcons in E1 as (pre' & -> & E1).
        apply Hfirst in E1. simpl. lia.
Qed.

Lemma Contains_spec s sub : Contains s sub = true ↔ substring sub s.
Proof.
  unfold Contains. destruct (Index_cases sub s) as [[E Hno] | (pre & post & E & Hs & _)].
  - rewrite E. split; [discriminate | contradiction].
  - rewrite E. split; [intros _; now exists pre, post | intros _; apply Z.leb_le; lia].
Qed.

Lemma Contains_false s sub : Contains s sub = false ↔ ¬ substring sub s.
Proof. rewrite <- Contains_spec. now destruct (Contains s sub). Qed.

Lemma ReplaceFirst_spec s old new pre post :
  firstOccurrence old s pre post → ReplaceFirst s old new = pre ++ new ++ post.
Proof.
  intros Hf. unfold ReplaceFirst.
  destruct (Index_cases old s) as [[_ Hno] | (pre' & post' & E & Hf')].
  - exfalso. apply Hno. destruct Hf as [E _]. now exists pre, post.
  - assert (length pre' = length pre) as El.
    { destruct Hf as [E1 H1], Hf' as [E2 H2].
      pose proof (H1 _ _ E2). pose proof (H2 _ _ E1). lia. }
    rewrite E, El.
    destruct (Z.of_nat (length pre) <? 0) eqn:Hneg; [apply Z.ltb_lt in Hneg; lia |].
    rewrite Nat2Z.id. destruct Hf as [-> _].
    rewrite take_app_length, <- drop_drop, drop_app_length, drop_app_length. reflexivity.
Qed.

End search.

(** ** Updating an action reference *)

Section update.
Import Workflow.

Lemma updatedLine_rewritten oldUses newUses comment line :
  substring oldUses line →
  rewritten oldUses newUses comment line (updatedLine oldUses newUses comment line).
Proof.
  intros Hs. unfold updatedLine.
  destruct (Index_cases oldUses line) as [[_ Hno] | (pre & post & _ & Hf)]; [contradiction |].
  rewrite (ReplaceFirst_spec line oldUses newUses pre post Hf).
  exists pre, post.
  destruct (Index_cases (lit " #") (pre ++ newUses ++ post))
    as [[E Hno] | (kept & post' & E & Hf')]; rewrite E.
  - exists (pre ++ newUses ++ post). split; [exact Hf |]. split; [now left |].
    cbn [Z.eqb negb]. destruct (bool_decide (comment = [])); cbn [negb];
      [now rewrite app_nil_r | reflexivity].
  - exists kept. split; [exact Hf |]. split; [right; now exists post' |].
    destruct (Z.of_nat (length kept) =? -1) eqn:Hneg; [apply Z.eqb_eq in Hneg; lia |].
    cbn [negb]. rewrite Nat2Z.id.
    destruct Hf' as [-> _]. rewrite take_app_length.
    destruct (bool_decide (comment = [])); cbn [negb];
      [now rewrite app_nil_r | reflexivity].
Qed.

Lemma updateLines_spec oldUses newUses comment todo : ∀ i pre updated,
  length pre = i →
  updateLines oldUses newUses comment i todo (pre ++ todo) updated =
  (pre ++ ((λ line, if Contains line oldUses
                    then updatedLine oldUses newUses comment line else line) <$> todo),
   updated || existsb (λ line, Contains line oldUses) todo).
Proof.
  induction todo as [| line todo IH]; intros i pre updated Hi.
  - simpl. now rewrite orb_false_r.
  - cbn [updateLines existsb fmap list_fmap].
    destruct (Contains line oldUses) eqn:Hc.
    + rewrite <- Hi, insert_app_r_alt, Nat.sub_diag by lia. cbn [insert list_insert].
      rewrite (cons_middle _ pre todo), app_assoc, IH by (rewrite length_app; simpl; lia).
      rewrite <- app_assoc, orb_true_r. reflexivity.
    + rewrite (cons_middle line pre todo), app_assoc, IH by (rewrite length_app; simpl; lia).
      rewrite <- app_assoc. reflexivity.
Qed.

(** C7.  If [oldUses] occurs in no line of the raw content,
    [UpdateActionUses] returns the error "action ... not found" and leaves
    the workflow (its raw bytes in particular) and the disk as they were.
    If it occurs in some line, the raw bytes become the lines joined by
    line feeds again, where a line without [oldUses] is kept and a line
    with it has the first occurrence replaced by [newUses], is cut before
    its first [" #"], loses its trailing blanks and tabs, and gets
    [" # " ++ comment] appended when [comment] is not empty; the cached
    tree is dropped and the result is that of writing the file. *)
Theorem UpdateActionUses_spec {Disk} {FS : FileSystem Disk}
    (w : Workflow) (d : Disk) (oldUses newUses comment : gostring) :
  ((∀ line, line ∈ Lines w → ¬ substring oldUses line) →
   UpdateActionUses w d oldUses newUses comment
   = (w, d, Some (lit "action " ++ oldUses ++ lit " not found")))
  ∧ ((∃ line, line ∈ Lines w ∧ substring oldUses line) →
     ∃ newLines,
       Forall2 (λ line newLine,
                  (¬ substring oldUses line ∧ newLine = line)
                  ∨ (substring oldUses line
                     ∧ rewritten oldUses newUses comment line newLine))
               (Lines w) newLines
       ∧ UpdateActionUses w d oldUses newUses comment
         = (invalidateNode (setRawBytes w (Join newLines [LF])),
            (WriteFile d (File w) (Join newLines [LF])).1,
            (WriteFile d (File w) (Join newLines [LF])).2)).
Proof.
  unfold UpdateActionUses, Lines.
  pose proof (updateLines_spec oldUses newUses comment (Split (RawBytes w) [LF])
                0%nat [] false eq_refl) as Eu.
  cbn [app orb] in Eu. rewrite Eu. clear Eu. split.
  - intros Hno.
    assert (existsb (λ line, Contains line oldUses) (Split (RawBytes w) [LF]) = false) as E.
    { apply not_true_is_false. intros E. apply existsb_exists in E as (line & Hin & Hc).
      apply (Hno line); [now apply list_elem_of_In | now apply Contains_spec]. }
    now rewrite E.
  - intros (line & Hin & Hs).
    assert (existsb (λ line, Contains line oldUses) (Split (RawBytes w) [LF]) = true) as E.
    { apply existsb_exists. exists line. split; [now apply list_elem_of_In | now apply Contains_spec]. }
    rewrite E. cbn [negb].
    exists ((λ line, if Contains line oldUses
                     then updatedLine oldUses newUses comment line else line)
              <$> Split (RawBytes w) [LF]).
    split; [| cbn [File RawBytes invalidateNode setRawBytes];
              now destruct (WriteFile d (File w) _)].
    apply Forall2_fmap_r, Forall_Forall2_diag, Forall_forall.
    intros line' _. unfold compose. cbn beta. destruct (Contains line' oldUses) eqn:Hc.
    + right. apply Contains_spec in Hc. split; [exact Hc | now apply updatedLine_rewritten].
    + left. apply Contains_false in Hc. now split.
Qed.

End update.

(** ** Trimming *)

Section trimming.

Lemma dropWhile_suffix {A} (f : A → bool) (l : list A) : ∃ pre, l = pre ++ dropWhile f l.
Proof.
  induction l as [| x l [pre IH]]; [now exists [] |].
  simpl. destruct (f x); [| now exists []].
  exists (x :: pre). simpl. now rewrite <- IH.
Qed.

Lemma dropWhile_head {A} (f : A → bool) (l : list A) x :
  head (dropWhile f l) = Some x → f x = false.
Proof.
  induction l as [| y l IH]; [discriminate |].
  simpl. destruct (f y) eqn:E; [exact IH |].
  simpl. now intros [= <-].
Qed.

Lemma dropWhile_id {A} (f : A → bool) (l : list A) :
  (∀ x, head l = Some x → f x = false) → dropWhile f l = l.
Proof.
  destruct l as [| y l]; [reflexivity |].
  intros Hh. simpl. now rewrite (Hh y eq_refl).
Qed.

Lemma dropWhile_idem {A} (f : A → bool) (l : list A) :
  dropWhile f (dropWhile f l) = dropWhile f l.
Proof. apply dropWhile_id. intros x. apply dropWhile_head. Qed.

Lemma dropWhile_length {A} (f : A → bool) (l : list A) :
  (length (dropWhile f l) ≤ length l)%nat.
Proof.
  destruct (dropWhile_suffix f l) as [pre E]. rewrite E at 2. rewrite length_app. lia.
Qed.

Lemma dropWhile_replicate {A} (f : A → bool) (x : A) n (l : list A) :
  f x = true → dropWhile f (replicate n x ++ l) = dropWhile f l.
Proof. intros Hx. induction n as [| n IH]; [reflexivity |]. simpl. now rewrite Hx. Qed.

Lemma TrimRight_idem s cutset : TrimRight (TrimRight s cutset) cutset = TrimRight s cutset.
Proof. unfold TrimRight. now rewrite rev_involutive, dropWhile_idem. Qed.

(** A string that ends with a byte outside the cutset is left alone. *)
Lemma TrimRight_last s c cutset :
  inCutset cutset c = false → TrimRight (s ++ [c]) cutset = s ++ [c].
Proof.
  intros Hc. unfold TrimRight. rewrite rev_app_distr. simpl. rewrite Hc. simpl.
  now rewrite rev_involutive.
Qed.

Lemma TrimRight_fixed s cutset :
  TrimRight s cutset = s → s = [] ∨ ∃ s' c, s = s' ++ [c] ∧ inCutset cutset c = false.
Proof.
  unfold TrimRight. intros E.
  destruct (rev s) as [| c r] eqn:Er.
  - left. now rewrite <- (rev_involutive s), Er.
  - right. exists (rev r), c.
    assert (s = rev r ++ [c]) as Es by now rewrite <- (rev_involutive s), Er.
    split; [exact Es |].
    apply (dropWhile_head (inCutset cutset) (c :: r)).
    apply (f_equal (@rev ascii)) in E. rewrite rev_involutive, Er in E. now rewrite E.
Qed.

Lemma TrimLeft_last s c cutset :
  inCutset cutset c = false →
  ∃ s', TrimLeft (s ++ [c]) cutset = s' ++ [c].
Proof.
  intros Hc. unfold TrimLeft. induction s as [| x s IH].
  - exists []. simpl. now rewrite Hc.
  - simpl. destruct (inCutset cutset x); [exact IH | now exists (x :: s)].
Qed.

Lemma TrimLeft_head s cutset x :
  head (TrimLeft s cutset) = Some x → inCutset cutset x = false.
Proof. apply dropWhile_head. Qed.

Lemma inCutset_sub cutset cutset' c :
  (∀ x, x ∈ cutset → x ∈ cutset') → inCutset cutset' c = false → inCutset cutset c = false.
Proof.
  unfold inCutset. intros Hsub Hc. apply bool_decide_eq_false_2.
  apply bool_decide_eq_false_1 in Hc. auto.
Qed.

End trimming.

(** ** The format fixer *)

Section format_fix.
Import Workflow Config Linter.

Lemma Repeat_SP n : Repeat [SP] n = replicate (Z.to_nat n) SP.
Proof.
  unfold Repeat. induction (Z.to_nat n) as [| k IH]; [reflexivity |].
  simpl. now rewrite IH.
Qed.

Lemma countLeadingSpaces_nonneg line : 0 ≤ countLeadingSpaces line.
Proof.
  unfold countLeadingSpaces, len, TrimLeft.
  pose proof (dropWhile_length (inCutset [SP]) line). lia.
Qed.

Lemma countLeadingSpaces_nil : countLeadingSpaces [] = 0.
Proof. reflexivity. Qed.

Lemma countLeadingSpaces_reindent n r :
  0 ≤ n → (∀ x, head r = Some x → inCutset [SP; TAB] x = false) →
  countLeadingSpaces (Repeat [SP] n ++ r) = n.
Proof.
  intros Hn Hr. unfold countLeadingSpaces, len, TrimLeft.
  rewrite Repeat_SP, dropWhile_replicate by reflexivity.
  rewrite dropWhile_id.
  - rewrite length_app, length_replicate. lia.
  - intros x Hx. apply (inCutset_sub [SP] [SP; TAB]); [| now apply Hr].
    intros y Hy. apply list_elem_of_singleton in Hy as ->. left.
Qed.

(** Either the line is left alone or it is set one step further than the
    previous one. *)
Lemma fixIndentation_cases l line p :
  fixIndentation l line p = line
  ∨ ∃ st, settings l = Some st ∧ 0 < IndentWidth st ∧ p < countLeadingSpaces line
      ∧ fixIndentation l line p
        = Repeat [SP] (p + IndentWidth st) ++ TrimLeft line [SP; TAB].
Proof.
  unfold fixIndentation. destruct (settings l) as [st |]; [| now left].
  destruct (IndentWidth st <=? 0) eqn:Ew; [now left |].
  destruct (Stringutil.IsBlankOrComment line); [now left |].
  destruct (countLeadingSpaces line <=? p) eqn:Ep; [now left |].
  destruct (countLeadingSpaces line - p <=? IndentWidth st); [now left |].
  right. exists st. apply Z.leb_gt in Ew, Ep. auto.
Qed.

Lemma fixIndentation_stable l line p :
  0 ≤ p → TrimRight line [SP; TAB] = line →
  TrimRight (fixIndentation l line p) [SP; TAB] = fixIndentation l line p
  ∧ fixIndentation l (fixIndentation l line p) p = fixIndentation l line p.
Proof.
  intros Hp Ht.
  destruct (fixIndentation_cases l line p) as [E | (st & Es & Hw & Hlead & E)].
  - now rewrite !E.
  - rewrite E.
    destruct (TrimRight_fixed line [SP; TAB] Ht) as [-> | (s' & c & -> & Hc)].
    { rewrite countLeadingSpaces_nil in Hlead. lia. }
    destruct (TrimLeft_last s' c [SP; TAB] Hc) as [s'' Es''].
    split.
    + rewrite Es'', app_assoc. now apply TrimRight_last.
    + unfold fixIndentation at 1. rewrite Es.
      destruct (IndentWidth st <=? 0) eqn:Ew; [apply Z.leb_le in Ew; lia |].
      destruct (Stringutil.IsBlankOrComment _); [reflexivity |].
      rewrite countLeadingSpaces_reindent; [| lia | apply TrimLeft_head].
      destruct (p + IndentWidth st <=? p) eqn:E1; [reflexivity |].
      replace (p + IndentWidth st - p) with (IndentWidth st) by lia.
      now rewrite Z.leb_refl.
Qed.

(** What one turn of the loop does to a state, in terms of the line it
    would emit. *)
Lemma fixLine_eq l st line :
  let line' := fixIndentation l (TrimRight line [SP; TAB]) (prevIndent st) in
  fixLine l st line =
  if bool_decide (TrimSpace line' = []) then
    {| fixed := if negb (prevWasBlank st) then fixed st ++ [line'] else fixed st;
       prevWasBlank := true; prevIndent := prevIndent st |}
  else
    {| fixed := fixed st ++ [line']; prevWasBlank := false;
       prevIndent := countLeadingSpaces line' |}.
Proof. reflexivity. Qed.

Lemma TrimRight_elem s cutset c : c ∈ TrimRight s cutset → c ∈ s.
Proof.
  unfold TrimRight. intros Hc. apply list_elem_of_In, in_rev, list_elem_of_In in Hc.
  destruct (dropWhile_suffix (inCutset cutset) (rev s)) as [pre E].
  apply list_elem_of_In, in_rev, list_elem_of_In. rewrite E. apply elem_of_app. now right.
Qed.

Lemma TrimLeft_elem s cutset c : c ∈ TrimLeft s cutset → c ∈ s.
Proof.
  unfold TrimLeft. intros Hc.
  destruct (dropWhile_suffix (inCutset cutset) s) as [pre E].
  rewrite E. apply elem_of_app. now right.
Qed.

Lemma fixIndentation_noLF l line p : LF ∉ line → LF ∉ fixIndentation l line p.
Proof.
  intros Hl. destruct (fixIndentation_cases l line p) as [E | (st & _ & _ & _ & E)];
    rewrite E; [exact Hl |].
  rewrite Repeat_SP. intros Hin. apply elem_of_app in Hin as [Hin | Hin].
  - apply elem_of_replicate in Hin as [Hin _]. discriminate Hin.
  - now apply TrimLeft_elem in Hin.
Qed.

(** The lines a run of the loop emits go through the loop unchanged, from
    a state with the same flags. *)
Lemma fold_fixLine_stable l lines : ∀ st,
  0 ≤ prevIndent st →
  ∃ out,
    fixed (fold_left (fixLine l) lines st) = fixed st ++ out
    ∧ 0 ≤ prevIndent (fold_left (fixLine l) lines st)
    ∧ (length out ≤ length lines)%nat
    ∧ (Forall (λ line, LF ∉ line) lines → Forall (λ line, LF ∉ line) out)
    ∧ ∀ st2, prevWasBlank st2 = prevWasBlank st → prevIndent st2 = prevIndent st →
        fold_left (fixLine l) out st2 =
        {| fixed := fixed st2 ++ out;
           prevWasBlank := prevWasBlank (fold_left (fixLine l) lines st);
           prevIndent := prevIndent (fold_left (fixLine l) lines st) |}.
Proof.
  induction lines as [| line lines IH]; intros st Hp.
  - exists []. cbn [fold_left]. rewrite app_nil_r.
    split; [reflexivity |]. split; [exact Hp |]. split; [reflexivity |].
    split; [intros _; constructor |].
    intros [f2 b2 p2] Eb Ei. simpl in *. subst. now rewrite app_nil_r.
  - cbn [fold_left]. rewrite fixLine_eq.
    set (line' := fixIndentation l (TrimRight line [SP; TAB]) (prevIndent st)).
    destruct (fixIndentation_stable l (TrimRight line [SP; TAB]) (prevIndent st) Hp
                (TrimRight_idem line [SP; TAB])) as [Et Ef].
    fold line' in Et, Ef.
    assert (LF ∉ line → LF ∉ line') as Hlf.
    { intros Hl. apply fixIndentation_noLF. intros Hin. now apply TrimRight_elem in Hin. }
    assert (∀ st2, prevIndent st2 = prevIndent st →
              fixIndentation l (TrimRight line' [SP; TAB]) (prevIndent st2) = line') as E2.
    { intros st2 ->. now rewrite Et. }
    destruct (bool_decide (TrimSpace line' = [])) eqn:Eb.
    + destruct (prevWasBlank st) eqn:Ew; cbn [negb].
      * match goal with |- context [fold_left _ lines ?s] =>
          destruct (IH s Hp) as (out & E1 & Hp1 & Hlen & Hno & Hst) end.
        exists out. cbn [fixed] in E1.
        split; [exact E1 |]. split; [exact Hp1 |]. split; [simpl; lia |].
        split; [intros Hall; apply Forall_cons in Hall as [_ Hall]; auto |].
        intros st2 E3 E4. now apply Hst.
      * match goal with |- context [fold_left _ lines ?s] =>
          destruct (IH s Hp) as (out & E1 & Hp1 & Hlen & Hno & Hst) end.
        exists (line' :: out). cbn [fixed] in E1.
        split; [now rewrite E1, <- app_assoc |]. split; [exact Hp1 |].
        split; [simpl; lia |].
        split; [intros Hall; apply Forall_cons in Hall as [H1 Hall]; constructor; auto |].
        intros st2 E3 E4. cbn [fold_left]. rewrite fixLine_eq, (E2 st2 E4), Eb, E3.
        cbn [negb]. rewrite Hst by (simpl; auto). cbn [fixed].
        now rewrite <- app_assoc.
    + match goal with |- context [fold_left _ lines ?s] =>
        destruct (IH s (countLeadingSpaces_nonneg line')) as (out & E1 & Hp1 & Hlen & Hno & Hst) end.
      exists (line' :: out). cbn [fixed] in E1.
      split; [now rewrite E1, <- app_assoc |]. split; [exact Hp1 |].
      split; [simpl; lia |].
      split; [intros Hall; apply Forall_cons in Hall as [H1 Hall]; constructor; auto |].
      intros st2 E3 E4. cbn [fold_left]. rewrite fixLine_eq, (E2 st2 E4), Eb.
      rewrite Hst by (simpl; auto). cbn [fixed].
      now rewrite <- app_assoc.
Qed.

End format_fix.

(** ** Splitting into lines and joining them *)

Section lines.

Lemma HasPrefix_nil s : HasPrefix s [] = true.
Proof. now destruct s. Qed.

Lemma Index_single_cons c x s :
  Index (x :: s) [c] =
  if decide (x = c) then 0
  else if Index s [c] <? 0 then -1 else Index s [c] + 1.
Proof.
  cbn [Index HasPrefix]. destruct (decide (x = c)); [now rewrite HasPrefix_nil | reflexivity].
Qed.

Lemma Index_single_range c s : -1 ≤ Index s [c] < Z.of_nat (length s).
Proof.
  induction s as [| x s IH].
  - cbn. lia.
  - rewrite Index_single_cons. destruct (decide (x = c)); [simpl length; lia |].
    destruct (Index s [c] <? 0) eqn:E; simpl length; [lia |]. apply Z.ltb_ge in E. lia.
Qed.

Lemma splitOn_Index c s :
  splitOn c s =
  if Index s [c] <? 0 then [s]
  else take (Z.to_nat (Index s [c])) s
       :: splitOn c (drop (Z.to_nat (Index s [c]) + 1) s).
Proof.
  induction s as [| x s IH]; [reflexivity |].
  rewrite Index_single_cons. cbn [splitOn].
  destruct (decide (x = c)) as [-> | Hne]; [reflexivity |].
  rewrite IH. pose proof (Index_single_range c s) as Hr.
  destruct (Index s [c] <? 0) eqn:E; [reflexivity |].
  apply Z.ltb_ge in E.
  destruct (Index s [c] + 1 <? 0) eqn:E'; [apply Z.ltb_lt in E'; lia |].
  replace (Z.to_nat (Index s [c] + 1)) with (S (Z.to_nat (Index s [c]))) by lia.
  reflexivity.
Qed.

Lemma splitFrom_splitOn c : ∀ fuel s,
  (length s ≤ fuel)%nat → splitFrom fuel s [c] = splitOn c s.
Proof.
  induction fuel as [| fuel IH]; intros s Hs.
  - destruct s; [reflexivity | simpl in Hs; lia].
  - cbn [splitFrom]. rewrite splitOn_Index.
    pose proof (Index_single_range c s) as Hr.
    destruct (Index s [c] <? 0) eqn:E; [reflexivity |].
    apply Z.ltb_ge in E. cbn [length]. rewrite IH; [reflexivity |].
    rewrite length_drop. lia.
Qed.

Lemma Split_splitOn c s : Split s [c] = splitOn c s.
Proof. unfold Split. now apply splitFrom_splitOn. Qed.

Lemma splitOn_absent c s : c ∉ s → splitOn c s = [s].
Proof.
  induction s as [| x s IH]; [reflexivity |].
  intros Hc. apply not_elem_of_cons in Hc as [Hne Hc].
  cbn [splitOn]. rewrite decide_False by congruence. now rewrite IH.
Qed.

Lemma splitOn_app c s t : c ∉ s → splitOn c (s ++ c :: t) = s :: splitOn c t.
Proof.
  induction s as [| x s IH]; intros Hc.
  - cbn. now rewrite decide_True.
  - apply not_elem_of_cons in Hc as [Hne Hc].
    cbn [app splitOn]. rewrite decide_False by congruence. now rewrite IH.
Qed.

Lemma splitOn_no_sep c s : Forall (λ line, c ∉ line) (splitOn c s).
Proof.
  induction s as [| x s IH]; [repeat constructor; apply not_elem_of_nil |].
  cbn [splitOn]. destruct (decide (x = c)) as [-> | Hne].
  - constructor; [apply not_elem_of_nil | exact IH].
  - destruct (splitOn c s) as [| h t].
    { repeat constructor. apply not_elem_of_cons. split; [congruence | apply not_elem_of_nil]. }
    apply Forall_cons in IH as [Hh Ht]. constructor; [| exact Ht].
    apply not_elem_of_cons. split; [congruence | exact Hh].
Qed.

Lemma splitOn_Join c ls :
  ls ≠ [] → Forall (λ line, c ∉ line) ls → splitOn c (Join ls [c]) = ls.
Proof.
  induction ls as [| e ls IH]; [contradiction |].
  intros _ Hall. apply Forall_cons in Hall as [He Hall].
  destruct ls as [| e2 ls].
  - cbn [Join]. now apply splitOn_absent.
  - change (Join (e :: e2 :: ls) [c]) with (e ++ c :: Join (e2 :: ls) [c]).
    rewrite splitOn_app by assumption. now rewrite IH.
Qed.

Lemma Join_snoc_nil ls sep : ls ≠ [] → Join (ls ++ [[]]) sep = Join ls sep ++ sep.
Proof.
  induction ls as [| e ls IH]; [contradiction |]. intros _.
  destruct ls as [| e2 ls].
  - cbn. now rewrite app_nil_r.
  - change (Join ((e :: e2 :: ls) ++ [[]]) sep)
      with (e ++ sep ++ Join ((e2 :: ls) ++ [[]]) sep).
    rewrite IH by discriminate.
    change (Join (e :: e2 :: ls) sep) with (e ++ sep ++ Join (e2 :: ls) sep).
    now rewrite <- !app_assoc.
Qed.

End lines.

(** ** The format fixer is idempotent *)

Section format_idempotent.
Import Workflow Config Linter.

Lemma withoutTrailingBlank_snoc ls x :
  withoutTrailingBlank (ls ++ [x]) =
  if isBlankLine x then withoutTrailingBlank ls else ls ++ [x].
Proof.
  unfold withoutTrailingBlank. rewrite rev_app_distr. cbn [rev app dropWhile].
  destruct (isBlankLine x); [reflexivity |].
  cbn [rev]. now rewrite rev_involutive.
Qed.

Lemma withoutTrailingBlank_idem ls :
  withoutTrailingBlank (withoutTrailingBlank ls) = withoutTrailingBlank ls.
Proof. unfold withoutTrailingBlank. now rewrite rev_involutive, dropWhile_idem. Qed.

Lemma withoutTrailingBlank_prefix ls : ∃ blanks, ls = withoutTrailingBlank ls ++ blanks.
Proof.
  unfold withoutTrailingBlank.
  destruct (dropWhile_suffix isBlankLine (rev ls)) as [pre E].
  exists (rev pre). rewrite <- rev_app_distr, <- E. now rewrite rev_involutive.
Qed.

Lemma removeTrailingEmpty_spec : ∀ fuel ls,
  (length ls ≤ fuel)%nat → removeTrailingEmpty fuel ls = withoutTrailingBlank ls.
Proof.
  induction fuel as [| fuel IH]; intros ls Hl.
  - destruct ls; [reflexivity | simpl in Hl; lia].
  - destruct ls as [| x ls _] using rev_ind; [reflexivity |].
    rewrite length_app in Hl. simpl in Hl.
    cbn [removeTrailingEmpty]. rewrite last_snoc, withoutTrailingBlank_snoc.
    change (default [] (Some x)) with x.
    rewrite length_app. simpl length.
    replace (0 <? length ls + 1)%nat with true by (symmetry; apply Nat.ltb_lt; lia).
    cbn [andb]. fold (isBlankLine x). destruct (isBlankLine x); [| reflexivity].
    replace (length ls + 1 - 1)%nat with (length ls) by lia.
    rewrite take_app_length. apply IH. lia.
Qed.

Lemma fixLine_nil l st :
  0 ≤ prevIndent st →
  fixLine l st [] =
  {| fixed := if negb (prevWasBlank st) then fixed st ++ [[]] else fixed st;
     prevWasBlank := true; prevIndent := prevIndent st |}.
Proof.
  intros Hp. rewrite fixLine_eq. change (TrimRight [] [SP; TAB]) with (@nil ascii).
  destruct (fixIndentation_cases l [] (prevIndent st)) as [E | (s & _ & _ & Hlt & _)].
  - rewrite E. reflexivity.
  - rewrite countLeadingSpaces_nil in Hlt. lia.
Qed.

(** A prefix of lines that pass through the loop unchanged passes through
    unchanged. *)
Lemma stable_prefix l A B st :
  0 ≤ prevIndent st →
  fixed (fold_left (fixLine l) (A ++ B) st) = fixed st ++ A ++ B →
  fixed (fold_left (fixLine l) A st) = fixed st ++ A
  ∧ 0 ≤ prevIndent (fold_left (fixLine l) A st).
Proof.
  intros Hp E. rewrite fold_left_app in E.
  destruct (fold_fixLine_stable l A st Hp) as (outA & EA & HpA & HlA & _).
  destruct (fold_fixLine_stable l B _ HpA) as (outB & EB & _ & HlB & _).
  rewrite EB, EA, <- app_assoc in E. apply app_inv_head in E.
  assert (length outA = length A) as Hlen.
  { apply (f_equal length) in E. rewrite !length_app in E. lia. }
  apply app_inj_1 in E as [-> _]; [| exact Hlen]. now split.
Qed.

Lemma fixContent_idempotent l raw : fixContent l (fixContent l raw) = fixContent l raw.
Proof.
  set (st0 := {| fixed := []; prevWasBlank := false; prevIndent := 0 |}).
  destruct (fold_fixLine_stable l (Split raw [LF]) st0 (Z.le_refl 0))
    as (F & EF & _ & _ & Hno & Hst).
  cbn [fixed st0 app] in EF.
  specialize (Hno ltac:(rewrite Split_splitOn; apply splitOn_no_sep)).
  specialize (Hst st0 eq_refl eq_refl).
  destruct (withoutTrailingBlank_prefix F) as [blanks EB].
  assert (fixContent l raw = Join (withoutTrailingBlank F) [LF] ++ [LF]) as Hc.
  { unfold fixContent, fixLines. cbn zeta. fold st0.
    now rewrite removeTrailingEmpty_spec, EF by reflexivity. }
  rewrite Hc. clear Hc EF.
  set (F' := withoutTrailingBlank F) in *.
  assert (fixed (fold_left (fixLine l) F' st0) = F'
          ∧ 0 ≤ prevIndent (fold_left (fixLine l) F' st0)) as [EF' Hp'].
  { apply (stable_prefix l F' blanks st0 (Z.le_refl 0)). rewrite <- EB, Hst. reflexivity. }
  assert (Forall (λ line, LF ∉ line) F') as Hno'.
  { rewrite EB in Hno. now apply Forall_app in Hno as [Hno _]. }
  unfold fixContent. cbn zeta.
  rewrite removeTrailingEmpty_spec by reflexivity. unfold fixLines. fold st0.
  f_equal. f_equal.
  destruct (decide (F' = [])) as [E0 | Hne].
  - rewrite E0. change (Split (Join [] [LF] ++ [LF]) [LF]) with [@nil ascii; @nil ascii].
    cbn [fold_left]. rewrite !fixLine_nil by (try rewrite fixLine_nil; simpl; lia).
    reflexivity.
  - rewrite <- Join_snoc_nil by exact Hne.
    rewrite Split_splitOn, splitOn_Join.
    + rewrite fold_left_app. cbn [fold_left]. rewrite fixLine_nil by exact Hp'.
      cbn [fixed]. rewrite EF'.
      destruct (negb (prevWasBlank (fold_left (fixLine l) F' st0))).
      * rewrite withoutTrailingBlank_snoc. change (isBlankLine []) with true. cbn iota.
        apply withoutTrailingBlank_idem.
      * apply withoutTrailingBlank_idem.
    + now destruct F'.
    + apply Forall_app. split; [exact Hno' | repeat constructor; apply not_elem_of_nil].
Qed.

(** C3.  Fixing the format twice gives the bytes that fixing it once
    gives: after [FixWorkflow] the raw bytes are [fixContent] of what they
    were, whether or not the file could be written, and [fixContent] does
    not change what it has produced. *)
Theorem format_fix_idempotent {Disk} {FS : FileSystem Disk}
    (l : FormatLinter) (wf : Workflow) (d : Disk) :
  let once := FixWorkflow l wf d in
  let twice := FixWorkflow l once.1.1 once.1.2 in
  RawBytes once.1.1 = fixContent l (RawBytes wf)
  ∧ RawBytes twice.1.1 = RawBytes once.1.1
  ∧ fixContent l (fixContent l (RawBytes wf)) = fixContent l (RawBytes wf).
Proof.
  assert (∀ w d', RawBytes (FixWorkflow l w d').1.1 = fixContent l (RawBytes w)) as E.
  { intros w d'. unfold FixWorkflow, fixWorkflow, Lines. cbn zeta.
    cbn [RawBytes setRawBytes File].
    now destruct (WriteFile d' _ _). }
  cbn zeta. rewrite !E. repeat split; apply fixContent_idempotent.
Qed.

End format_idempotent.

(** ** Classifying the issues after a fix *)

Section classify.
Import Linter Cmd.

Lemma remainingKeys_lookup remaining : ∀ (keys : gmap gostring bool) k,
  fold_left (λ keys issue, <[Key issue := true]> keys) remaining keys !! k =
  if bool_decide (k ∈ Key <$> remaining) then Some true else keys !! k.
Proof.
  induction remaining as [| issue remaining IH]; intros keys k.
  - cbn [fold_left fmap list_fmap]. now rewrite bool_decide_eq_false_2 by apply not_elem_of_nil.
  - cbn [fold_left fmap list_fmap]. rewrite IH.
    destruct (bool_decide_reflect (k ∈ Key <$> remaining)) as [Hin | Hnin].
    + rewrite bool_decide_eq_true_2; [reflexivity | now right].
    + destruct (decide (k = Key issue)) as [-> | Hne].
      * rewrite lookup_insert_eq. rewrite bool_decide_eq_true_2; [reflexivity | left].
      * rewrite lookup_insert_ne by congruence.
        rewrite bool_decide_eq_false_2; [reflexivity |].
        intros Hin. apply elem_of_cons in Hin as [-> | Hin]; contradiction.
Qed.

(** What [classifyIssues] computes: the issues of the first pass in their
    order, those whose [Key] is the key of some remaining issue as unfixed,
    the others as fixed. *)
Lemma classifyIssues_by_key original remaining :
  classifyIssues original remaining =
  (filter (λ issue, Key issue ∉ Key <$> remaining) original,
   filter (λ issue, Key issue ∈ Key <$> remaining) original).
Proof.
  unfold classifyIssues.
  set (keys := fold_left _ remaining ∅).
  assert (∀ issue, default false (keys !! Key issue)
                   = bool_decide (Key issue ∈ Key <$> remaining)) as Hk.
  { intros issue. unfold keys. rewrite remainingKeys_lookup, lookup_empty.
    now destruct (bool_decide _). }
  enough (∀ fixed unfixed,
            fold_left (λ '(fixed, unfixed) issue,
                         if default false (keys !! Key issue)
                         then (fixed, unfixed ++ [issue])
                         else (fixed ++ [issue], unfixed)) original (fixed, unfixed)
            = (fixed ++ filter (λ issue, Key issue ∉ Key <$> remaining) original,
               unfixed ++ filter (λ issue, Key issue ∈ Key <$> remaining) original)) as E.
  { now rewrite E. }
  induction original as [| issue original IH]; intros fixed unfixed.
  - cbn. now rewrite !app_nil_r.
  - cbn [fold_left]. rewrite Hk.
    destruct (bool_decide_reflect (Key issue ∈ Key <$> remaining)) as [Hin | Hnin].
    + rewrite IH, !filter_cons.
      rewrite (decide_True (P := Key issue ∈ Key <$> remaining)) by assumption.
      rewrite (decide_False (P := Key issue ∉ Key <$> remaining)) by auto.
      now rewrite <- app_assoc.
    + rewrite IH, !filter_cons.
      rewrite (decide_False (P := Key issue ∈ Key <$> remaining)) by assumption.
      rewrite (decide_True (P := Key issue ∉ Key <$> remaining)) by assumption.
      now rewrite <- app_assoc.
Qed.

Lemma filter_iff_on {A} (P Q : A → Prop) `{∀ x, Decision (P x)} `{∀ x, Decision (Q x)}
    (l : list A) :
  (∀ x, x ∈ l → (P x ↔ Q x)) → filter P l = filter Q l.
Proof.
  induction l as [| x l IH]; intros Hiff; [reflexivity |].
  rewrite !filter_cons, IH by (intros y Hy; apply Hiff; now right).
  assert (P x ↔ Q x) as Hx by (apply Hiff; left).
  destruct (decide (P x)) as [Hp | Hp], (decide (Q x)) as [Hq | Hq];
    try reflexivity; tauto.
Qed.

(** Where distinct issues have distinct keys, the unfixed issues are the
    issues of the first pass that are among the remaining ones. *)
Lemma classifyIssues_injective original remaining :
  (∀ i j, i ∈ original → j ∈ remaining → Key i = Key j → i = j) →
  classifyIssues original remaining =
  (filter (λ issue, issue ∉ remaining) original, filter (λ issue, issue ∈ remaining) original).
Proof.
  intros Hinj. rewrite classifyIssues_by_key.
  assert (∀ issue, issue ∈ original →
            (Key issue ∈ Key <$> remaining ↔ issue ∈ remaining)) as Hiff.
  { intros issue Hi. rewrite list_elem_of_fmap. split.
    - intros (j & E & Hj). now rewrite (Hinj issue j Hi Hj E).
    - intros Hin. now exists issue. }
  f_equal; apply filter_iff_on; intros issue Hi; specialize (Hiff issue Hi); tauto.
Qed.

(** C6, at the input on which the code departs from it.  [issueA] and
    [issueB] are issues the style linter reports, tagged by [Lint]; they
    are different and have the same [Key].  With [issueA] reported by the
    first pass and [issueB] by the second, no issue of the first pass
    occurs in the second, yet [classifyIssues] returns [issueA] as unfixed
    and nothing as fixed. *)
Theorem classifyIssues_key_collision :
  (λ issue, setLinter issue (lit "style"))
    <$> checkNameLength strictStyle (lit "a.yml:7:style:Job name 'x") (lit "ci.yml") 3 ctxJob
  = Some issueA
  ∧ (λ issue, setLinter issue (lit "style"))
      <$> checkNameLength strictStyle (lit "x") (lit "ci.yml:3:style:Job name 'a.yml") 7 ctxJob
    = Some issueB
  ∧ issueA ≠ issueB
  ∧ (issueA ∉ [issueB])
  ∧ Key issueA = Key issueB
  ∧ classifyIssues [issueA] [issueB] = ([], [issueA]).
Proof.
  assert (issueA ≠ issueB) as Hne by discriminate.
  split; [reflexivity |]. split; [reflexivity |].
  split; [exact Hne |].
  split; [intros Hin; apply list_elem_of_singleton in Hin; contradiction |].
  split; [reflexivity |].
  rewrite classifyIssues_by_key, !filter_cons.
  rewrite (decide_True (P := Key issueA ∈ Key <$> [issueB])) by left.
  rewrite (decide_False (P := Key issueA ∉ Key <$> [issueB])) by (intros Hn; apply Hn; left).
  reflexivity.
Qed.

End classify.

(** ** Instances of the properties on the sample data *)

Section instances.
Import Workflow Config Linter Cmd.

Lemma UpdateActionUses_spec_witness :
  (∀ line, line ∈ Lines sampleWorkflow → ¬ substring (lit "actions/setup-go@v4") line)
  ∧ @UpdateActionUses _ sampleDisk sampleWorkflow ∅
      (lit "actions/setup-go@v4") (lit "actions/setup-go@0123") (lit "v4.1.0")
    = (sampleWorkflow, ∅, Some (lit "action actions/setup-go@v4 not found"))
  ∧ (∃ line, line ∈ Lines sampleWorkflow ∧ substring (lit "actions/checkout@v3") line)
  ∧ ∃ newLines,
      Forall2 (λ line newLine,
                 (¬ substring (lit "actions/checkout@v3") line ∧ newLine = line)
                 ∨ (substring (lit "actions/checkout@v3") line
                    ∧ rewritten (lit "actions/checkout@v3") (lit "actions/checkout@" ++ sampleHash)
                        (lit "v3.5.0") line newLine))
              (Lines sampleWorkflow) newLines
      ∧ RawBytes (@UpdateActionUses _ sampleDisk sampleWorkflow ∅
                    (lit "actions/checkout@v3") (lit "actions/checkout@" ++ sampleHash)
                    (lit "v3.5.0")).1.1
        = Join newLines [LF].
Proof.
  assert (∀ line, line ∈ Lines sampleWorkflow → ¬ substring (lit "actions/setup-go@v4") line)
    as Habsent.
  { intros line Hin. apply Contains_false. revert line Hin. apply Forall_forall.
    apply (bool_decide_unpack _). vm_compute. exact I. }
  assert (∃ line, line ∈ Lines sampleWorkflow ∧ substring (lit "actions/checkout@v3") line)
    as Hpresent.
  { exists (lit "      - uses: actions/checkout@v3  # pinned").
    split; [apply (bool_decide_unpack _); vm_compute; exact I |].
    now exists (lit "      - uses: "), (lit "  # pinned"). }
  split; [exact Habsent |].
  split.
  { exact (proj1 (@UpdateActionUses_spec _ sampleDisk sampleWorkflow ∅
                    (lit "actions/setup-go@v4") (lit "actions/setup-go@0123") (lit "v4.1.0"))
                 Habsent). }
  split; [exact Hpresent |].
  destruct (proj2 (@UpdateActionUses_spec _ sampleDisk sampleWorkflow ∅
                     (lit "actions/checkout@v3") (lit "actions/checkout@" ++ sampleHash)
                     (lit "v3.5.0")) Hpresent) as (newLines & Hall & E).
  exists newLines. split; [exact Hall |]. now rewrite E.
Defined.

Lemma Lint_fail_fast_witness :
  (∀ n (m : gmap gostring LinterPlugin),
     @rangeLinters sampleSurroundings n m ≡ₚ map_to_list m)
  ∧ @ensureConfig sampleSurroundings sampleLinter = inr (sampleReady, {| Linters := None |})
  ∧ ∃ wf name plugin e,
      wf ∈ workflows sampleReady ∧ linters sampleReady !! name = Some plugin
      ∧ pluginFails {| Linters := None |} wf (name, plugin) e
      ∧ @Lint sampleSurroundings sampleLinter = (sampleReady, ([], Some (failure wf name e))).
Proof.
  assert (∀ n (m : gmap gostring LinterPlugin),
            @rangeLinters sampleSurroundings n m ≡ₚ map_to_list m) as Hrange
    by (intros n m; reflexivity).
  assert (@ensureConfig sampleSurroundings sampleLinter
          = inr (sampleReady, {| Linters := None |})) as Hready by reflexivity.
  split; [exact Hrange |]. split; [exact Hready |].
  apply (proj1 (@Lint_fail_fast sampleSurroundings Hrange sampleLinter sampleReady
                  {| Linters := None |} Hready)).
  exists sampleWorkflow, (lit "versions"),
    {| LintWorkflow := λ wf, ([], Some (lit "failed to parse YAML node")) |},
    (lit "failed to parse YAML node").
  split; [left |]. split; [vm_compute; reflexivity |]. split; reflexivity.
Defined.

Lemma newIssue_nonempty_message_witness :
  newIssue (lit "ci.yml") 10 (lit "some issue")
  = Some {| File := lit "ci.yml"; Line := 10; Linter := []; Message := lit "some issue" |}
  ∧ lit "some issue" ≠ []
  ∧ checkNameLength sampleStyle (lit "Build") (lit "ci.yml") 1 ctxWorkflow = None
  ∧ checkWorkflowName sampleStyle sampleWorkflow (lit "ci.yml")
    = [Some {| File := lit "ci.yml"; Line := 1; Linter := [];
               Message := lit "Workflow name 'ci' is too short (min 3 chars)" |};
       Some {| File := lit "ci.yml"; Line := 1; Linter := [];
               Message := lit "Workflow name should use Title Case" |}].
Proof.
  destruct newIssue_nonempty_message as (_ & T2 & _ & T4 & _).
  assert (newIssue (lit "ci.yml") 10 (lit "some issue")
          = Some {| File := lit "ci.yml"; Line := 10; Linter := [];
                    Message := lit "some issue" |}) as E by reflexivity.
  split; [exact E |].
  split; [exact (proj1 (T2 _ _ _ _ E)) |].
  split; [| vm_compute; reflexivity].
  apply (T4 sampleStyle (lit "Build") (lit "ci.yml") 1 ctxWorkflow); vm_compute; intros [H1 H2]; discriminate.
Defined.

(** The scenarios of the spec on the reference update and on the
    indentation fix. *)
Example update_reference_scenario :
  RawBytes (@UpdateActionUses _ sampleDisk sampleWorkflow ∅
              (lit "actions/checkout@v3") (lit "actions/checkout@" ++ sampleHash)
              (lit "v3.5.0")).1.1
  = lit "jobs:" ++ [LF] ++ lit "  build:" ++ [LF] ++ lit "    steps:" ++ [LF]
    ++ lit "      - uses: actions/checkout@b4ffde65f46336ab88eb53be808477a3936bae11 # v3.5.0"
    ++ [LF].
Proof. vm_compute. reflexivity. Qed.

Example indentation_fix_scenario :
  fixContent {| settings := Some {| IndentWidth := 2; MaxLineLength := 120 |} |}
    (lit "jobs:" ++ [LF] ++ lit "    build:   " ++ [LF]
     ++ lit "        runs-on: ubuntu-latest" ++ [LF] ++ [LF] ++ [LF])
  = lit "jobs:" ++ [LF] ++ lit "  build:" ++ [LF] ++ lit "    runs-on: ubuntu-latest" ++ [LF].
Proof. vm_compute. reflexivity. Qed.

Example key_strings :
  Actions.String (Actions.NewUnconstrainedKey (lit "actions") (lit "checkout"))
  = lit "actions/checkout"
  ∧ Actions.String (Actions.NewConstrainedKey (lit "actions") (lit "checkout")
                      (lit "v2.0.0") (lit "^2.0.0"))
    = lit "actions/checkout:v2.0.0:^2.0.0"
  ∧ Actions.String (Actions.NewConstrainedKey (lit "owner") (lit "repo") [] (lit "^1.0.0"))
    = lit "owner/repo::^1.0.0"
  ∧ Key {| File := lit "test.yml"; Line := 10; Linter := lit "style";
           Message := lit "some issue" |}
    = lit "test.yml:10:style:some issue".
Proof. vm_compute. repeat split. Qed.

Example trimming_and_splitting :
  TrimSpace (lit "  a b " ++ [TAB]) = lit "a b"
  ∧ TrimSpace [ascii_of_nat 194; ascii_of_nat 160; "x"%char;
               ascii_of_nat 226; ascii_of_nat 128; ascii_of_nat 131] = lit "x"
  ∧ Split (lit "a,b,,c,") (lit ",") = [lit "a"; lit "b"; []; lit "c"; []]
  ∧ Split [] [LF] = [[]]
  ∧ Fields (lit " ab  c ") = [lit "ab"; lit "c"]
  ∧ Index (lit "chicken") (lit "ken") = 4
  ∧ Index (lit "chicken") (lit "dmr") = -1.
Proof. vm_compute. repeat split. Qed.

End instances.
